(** * prepare_data.py: adjective/adverb example extraction

    A shallow embedding of [aux/prepare_data.py].  The script builds an
    adjective <-> adverb dictionary from two word lists with a table of
    suffix rules, scans the files of a corpus directory, asks an annotator
    for tagged sentences and collects the tokens that modify a verb.

    Python values are modelled as follows:
    - [str] is [string]; a character is one 8-bit code point, so the model
      covers the strings of the Latin-1 range;
    - [set] of strings (used for membership only) is [gset string];
    - [dict] from strings to strings is [gmap string string];
    - [list] is [list]; [int] indices produced by [range] are [nat], an
      [int] used as a slice bound is [Z];
    - the statements that can raise (listing a directory, opening a file,
      calling the annotator, indexing) live in a state-and-exception monad
      whose state holds the two example lists and a log of the calls made
      to the outside world. *)

From stdpp Require Import gmap strings list fin_maps sorting.

(* stdpp blocks the unfolding of string concatenation under [simpl]; the
   proofs below compute with it on literals. *)
#[local] Arguments String.append !_ _ / : simpl nomatch.
#[local] Set Warnings "-clear-no-such-hyp".

(** ** Python string primitives *)

Module Str.

(** [s.startswith(p)] *)
Fixpoint startswith (s p : string) {struct p} : bool :=
  match p with
  | "" => true
  | String c p' =>
      match s with
      | "" => false
      | String d s' => Ascii.eqb d c && startswith s' p'
      end
  end.

(** [s.endswith(suf)]: [s] is [suf], or what follows its first character
    ends with [suf]. *)
Fixpoint endswith (s suf : string) : bool :=
  if String.eqb s suf then true
  else match s with
       | "" => false
       | String _ s' => endswith s' suf
       end.

(** [s[:-1]]: all characters but the last; the empty string stays empty. *)
Fixpoint drop_last (s : string) : string :=
  match s with
  | "" => ""
  | String c s' =>
      match s' with
      | "" => ""
      | String _ _ => String c (drop_last s')
      end
  end.

(** [c.isspace()] on the code points below 256: tab, line feed, vertical
    tab, form feed, carriage return, the four separators 28..31, space,
    NEL (133) and the no-break space (160). *)
Definition isspace (c : Ascii.ascii) : bool :=
  let n := Ascii.nat_of_ascii c in
  ((9 <=? n)%nat && (n <=? 13)%nat) || ((28 <=? n)%nat && (n <=? 32)%nat)
  || (n =? 133)%nat || (n =? 160)%nat.

(** [s.lstrip()] *)
Fixpoint lstrip (s : string) : string :=
  match s with
  | "" => ""
  | String c s' => if isspace c then lstrip s' else s
  end.

(** [s.rstrip()]: a character is dropped when it is a space and everything
    after it has been stripped away. *)
Fixpoint rstrip (s : string) : string :=
  match s with
  | "" => ""
  | String c s' =>
      let r := rstrip s' in
      if String.eqb r "" && isspace c then "" else String c r
  end.

(** [s.strip()] *)
Definition strip (s : string) : string := rstrip (lstrip s).

(** Truth value of a string in a condition: non-empty. *)
Definition truthy (s : string) : bool := negb (String.eqb s "").

End Str.

(** ** The morphology mapper *)

(** The [if]/[elif] chain of lines 46-60 that assigns the local variable
    [adverb]. *)
Definition suffix_rules (adjective : string) : string :=
  if Str.endswith adjective "le" && negb (String.eqb adjective "sole")
  then Str.drop_last adjective +:+ "y"
  else if Str.endswith adjective "y" && negb (String.eqb adjective "shy")
  then Str.drop_last adjective +:+ "ily"
  else if Str.endswith adjective "ic" then adjective +:+ "ally"
  else if Str.endswith adjective "ll" then adjective +:+ "y"
  else adjective +:+ "ly".

(** [transform_adj_to_adv]; [None] is Python's [None].  [ADV] is the global
    set read from the adverb list. *)
Definition transform_adj_to_adv (ADV : gset string) (adjective : string)
  : option string :=
  if Str.endswith adjective "ly" then None
  else if bool_decide (adjective ∈ ADV) then Some adjective
  else if String.eqb adjective "good" then Some "well"
  else if bool_decide (adjective ∈ ["whole"; "true"])
  then Some (Str.drop_last adjective +:+ "ly")
  else
    let adverb := suffix_rules adjective in
    if bool_decide (adverb ∈ ADV) then Some adverb else None.

(** The validity check of line 62 on its own. *)
Definition gate (ADV : gset string) (adverb : string) : option string :=
  if bool_decide (adverb ∈ ADV) then Some adverb else None.

(** ** The two dictionaries (lines 64-70) *)

Record dicts := Dicts {
  adj_to_adv : gmap string string;
  adv_to_adj : gmap string string
}.

(** One round of the loop [for adj in ADJ].  [None] and the empty string
    are both false in [if adv and adv != adj]. *)
Definition build_step (ADV : gset string) (d : dicts) (adj : string) : dicts :=
  match transform_adj_to_adv ADV adj with
  | Some adv =>
      if Str.truthy adv && negb (String.eqb adv adj)
      then Dicts (<[adj := adv]> (adj_to_adv d)) (<[adv := adj]> (adv_to_adj d))
      else d
  | None => d
  end.

(** [ADJ] lists the adjective set in the order in which the loop visits
    it; Python fixes no order for a set, so every statement below is made
    for an arbitrary one. *)
Definition build_dicts (ADV : gset string) (ADJ : list string) : dicts :=
  foldl (build_step ADV) (Dicts ∅ ∅) ADJ.

(** Truth value of [d.get(k, None)]: the key is present and its value is
    a non-empty string. *)
Definition get_truthy (d : gmap string string) (k : string) : bool :=
  match d !! k with
  | Some v => Str.truthy v
  | None => false
  end.

(** ** Tokens, examples and the outside world *)

(** What the collector reads of a spaCy token: [token.text], [token.tag_]
    and [token.head.tag_]. *)
Record Token := {
  text : string;
  tag_ : string;
  head_tag_ : string
}.

(** The dictionaries appended to [adj] and [adv]. *)
Record Example := {
  sentence : list string;
  ind : nat;
  label : string
}.

(** The collaborators of the script: [os.listdir], [open(...).readlines()]
    and the annotator ([nlp(line).sents], a list of sentences).  [None]
    stands for a raised exception. *)
Record world := {
  listdir : string → option (list string);
  readlines : string → option (list string);
  annotate : string → option (list (list Token))
}.

(** Calls made to the outside world, in the order they happen. *)
Inductive event :=
  | Listed (dir : string)
  | Opened (path : string)
  | Annotated (line : string).

Record state := State {
  adj : list Example;
  adv : list Example;
  log : list event
}.

Inductive outcome (A : Type) :=
  | Returned (a : A)
  | Raised.
Arguments Returned {A} a.
Arguments Raised {A}.

(** State and exception: a raised exception stops the run, the state
    reached so far is kept. *)
Definition M (A : Type) : Type := state → outcome A * state.

#[global] Instance M_ret : MRet M := λ A a s, (Returned a, s).
#[global] Instance M_bind : MBind M := λ A B f m s,
  match m s with
  | (Returned a, s') => f a s'
  | (Raised, s') => (Raised, s')
  end.

Definition get_state : M state := λ s, (Returned s, s).
Definition emit (e : event) : M unit :=
  λ s, (Returned (), State (adj s) (adv s) (log s ++ [e])).
Definition lift_option {A} (o : option A) : M A :=
  λ s, match o with Some a => (Returned a, s) | None => (Raised, s) end.
Definition append_adj (e : Example) : M unit :=
  λ s, (Returned (), State (adj s ++ [e]) (adv s) (log s)).
Definition append_adv (e : Example) : M unit :=
  λ s, (Returned (), State (adj s) (adv s ++ [e]) (log s)).

(** [for x in l: body x] *)
Fixpoint for_ {A} (l : list A) (body : A → M unit) : M unit :=
  match l with
  | [] => mret ()
  | x :: l' => body x ;; for_ l' body
  end.

(** [l[:n]] with Python's reading of a negative bound. *)
Definition slice_to {A} (n : Z) (l : list A) : list A :=
  if (0 <=? n)%Z then take (Z.to_nat n) l
  else take (Z.to_nat (Z.of_nat (length l) + n)) l.

Section Script.

Context (w : world).

Definition os_listdir (dir : string) : M (list string) :=
  emit (Listed dir) ;; lift_option (listdir w dir).
Definition open_readlines (path : string) : M (list string) :=
  emit (Opened path) ;; lift_option (readlines w path).
Definition nlp_sents (line : string) : M (list (list Token)) :=
  emit (Annotated line) ;; lift_option (annotate w line).

(** Lines 86-98: the body of [for i in range(len(sent))]. *)
Definition collect_token (d : dicts) (sent : list Token) (i : nat) : M unit :=
  token ← lift_option (sent !! i);
  if String.eqb (tag_ token) "JJ"
     && Str.startswith (head_tag_ token) "VB"
     && get_truthy (adj_to_adv d) (text token)
  then append_adj {| sentence := text <$> sent; ind := i; label := "ADJ" |}
  else if String.eqb (tag_ token) "RB"
          && Str.startswith (head_tag_ token) "VB"
          && get_truthy (adv_to_adj d) (text token)
  then append_adv {| sentence := text <$> sent; ind := i; label := "ADV" |}
  else mret ().

Definition collect_sent (d : dicts) (sent : list Token) : M unit :=
  for_ (seq 0 (length sent)) (collect_token d sent).

(** Lines 82-84. *)
Definition scan_line (d : dicts) (line : string) : M unit :=
  let line := Str.strip line in
  if (0 <? String.length line)%nat && negb (Str.startswith line "<")
  then sents ← nlp_sents line; for_ sents (collect_sent d)
  else mret ().

(** Lines 78-81; the [print] of the file name only writes to the
    terminal and is left out. *)
Definition scan_file (d : dicts) (input_dir filename : string) : M unit :=
  lines ← open_readlines (input_dir +:+ filename);
  for_ lines (scan_line d).

(** Lines 76-104.  The result is the list handed to [json.dump]. *)
Definition scan (d : dicts) (input_dir : string) : M unit :=
  filenames ← os_listdir input_dir;
  for_ (slice_to 55 filenames) (scan_file d input_dir).

Definition dumped (s : state) : list Example :=
  slice_to 10000 (adj s) ++ slice_to 10000 (adv s).

Definition main (ADJ : list string) (ADV : gset string) (input_dir : string)
  : M (list Example) :=
  let d := build_dicts ADV ADJ in
  scan d input_dir ;;
  s ← get_state;
  mret (dumped s).

End Script.

(** [adj, adv = [], []] *)
Definition initial : state := State [] [] [].

(** ** The suffix rules as the rule list reads them

    A declarative reading: a word ends in a suffix when it is some stem
    followed by the suffix; the rules are tried in the listed order and
    the first whose condition holds decides the candidate. *)

Definition ends_in (suf s : string) : Prop := ∃ stem, s = stem +:+ suf.

Inductive rule := RuleLe | RuleY | RuleIc | RuleLl | RuleDefault.

Definition precedence : list rule := [RuleLe; RuleY; RuleIc; RuleLl; RuleDefault].

Definition matches (r : rule) (a : string) : Prop :=
  match r with
  | RuleLe => ends_in "le" a ∧ a ≠ "sole"
  | RuleY => ends_in "y" a ∧ a ≠ "shy"
  | RuleIc => ends_in "ic" a
  | RuleLl => ends_in "ll" a
  | RuleDefault => True
  end.

Definition rewrites (r : rule) (a cand : string) : Prop :=
  match r with
  | RuleLe => ∃ stem, a = stem +:+ "e" ∧ cand = stem +:+ "y"
  | RuleY => ∃ stem, a = stem +:+ "y" ∧ cand = stem +:+ "ily"
  | RuleIc => cand = a +:+ "ally"
  | RuleLl => cand = a +:+ "y"
  | RuleDefault => cand = a +:+ "ly"
  end.

Definition first_match (a cand : string) : Prop :=
  ∃ i r, precedence !! i = Some r ∧ matches r a ∧
         (∀ j r', j < i → precedence !! j = Some r' → ¬ matches r' a) ∧
         rewrites r a cand.

(** ** Auxiliary notions for the statements *)

(** The guard of each rule as the code tests it. *)
Definition guard (r : rule) (a : string) : bool :=
  match r with
  | RuleLe => Str.endswith a "le" && negb (String.eqb a "sole")
  | RuleY => Str.endswith a "y" && negb (String.eqb a "shy")
  | RuleIc => Str.endswith a "ic"
  | RuleLl => Str.endswith a "ll"
  | RuleDefault => true
  end.

(** The loop records the pair [(a, adv)]: the mapper returns [adv] for [a]
    and [adv] is another word. *)
Definition recorded (ADV : gset string) (a adv : string) : Prop :=
  transform_adj_to_adv ADV a = Some adv ∧ adv ≠ a.

#[local] Instance recorded_dec ADV a adv : Decision (recorded ADV a adv).
Proof. unfold recorded. apply _. Defined.

(** What a piece of the script appends to the two lists and to the log. *)
Record delta := Delta {
  d_adj : list Example;
  d_adv : list Example;
  d_log : list event
}.

Definition delta_nil : delta := Delta [] [] [].
Definition delta_app (x y : delta) : delta :=
  Delta (d_adj x ++ d_adj y) (d_adv x ++ d_adv y) (d_log x ++ d_log y).
Definition delta_concat (l : list delta) : delta := foldr delta_app delta_nil l.
Definition extend (s : state) (x : delta) : state :=
  State (adj s ++ d_adj x) (adv s ++ d_adv x) (log s ++ d_log x).

(** The rounds a loop makes: all of them up to and including the first
    that raises. *)
Fixpoint until_raise {A} (ok : A → bool) (l : list A) : list A :=
  match l with
  | [] => []
  | x :: l' => if ok x then x :: until_raise ok l' else [x]
  end.

Definition outcome_of (b : bool) : outcome unit :=
  if b then Returned () else Raised.

Definition is_adj (d : dicts) (token : Token) : bool :=
  String.eqb (tag_ token) "JJ"
  && Str.startswith (head_tag_ token) "VB"
  && get_truthy (adj_to_adv d) (text token).

Definition is_adv (d : dicts) (token : Token) : bool :=
  String.eqb (tag_ token) "RB"
  && Str.startswith (head_tag_ token) "VB"
  && get_truthy (adv_to_adj d) (text token).

Definition example_at (sent : list Token) (i : nat) (lbl : string) : Example :=
  {| sentence := text <$> sent; ind := i; label := lbl |}.

(** What position [i] of a sentence contributes. *)
Definition token_delta (d : dicts) (sent : list Token) (i : nat) : delta :=
  match sent !! i with
  | Some token =>
      if is_adj d token then Delta [example_at sent i "ADJ"] [] []
      else if is_adv d token then Delta [] [example_at sent i "ADV"] []
      else delta_nil
  | None => delta_nil
  end.

Definition sent_delta (d : dicts) (sent : list Token) : delta :=
  delta_concat (token_delta d sent <$> seq 0 (length sent)).

Section RunModel.

Context (w : world).

(** The test of line 83 on a line as read. *)
Definition line_kept (raw : string) : bool :=
  (0 <? String.length (Str.strip raw))%nat
  && negb (Str.startswith (Str.strip raw) "<").

(** The sentences the annotator gives for a line that passes the test. *)
Definition line_sents (raw : string) : list (list Token) :=
  if line_kept raw then default [] (annotate w (Str.strip raw)) else [].

Definition line_ok (raw : string) : bool :=
  negb (line_kept raw) || bool_decide (is_Some (annotate w (Str.strip raw))).

Definition line_delta (d : dicts) (raw : string) : delta :=
  if line_kept raw
  then delta_app (Delta [] [] [Annotated (Str.strip raw)])
                 (delta_concat (sent_delta d <$> line_sents raw))
  else delta_nil.

(** The lines of a file, none when it cannot be opened. *)
Definition file_lines (input_dir filename : string) : list string :=
  default [] (readlines w (input_dir +:+ filename)).

Definition file_ok (input_dir filename : string) : bool :=
  bool_decide (is_Some (readlines w (input_dir +:+ filename)))
  && forallb line_ok (file_lines input_dir filename).

Definition file_delta (d : dicts) (input_dir filename : string) : delta :=
  delta_app (Delta [] [] [Opened (input_dir +:+ filename)])
    (delta_concat
       (line_delta d <$> until_raise line_ok (file_lines input_dir filename))).

(** The file names the loop of line 77 ranges over. *)
Definition listed (input_dir : string) : list string :=
  slice_to 55 (default [] (listdir w input_dir)).

Definition scan_ok (input_dir : string) : bool :=
  bool_decide (is_Some (listdir w input_dir))
  && forallb (file_ok input_dir) (listed input_dir).

Definition scan_delta (d : dicts) (input_dir : string) : delta :=
  delta_app (Delta [] [] [Listed input_dir])
    (delta_concat
       (file_delta d input_dir
          <$> until_raise (file_ok input_dir) (listed input_dir))).

End RunModel.

(** One of the two example lists of a [delta]: [true] for the adjective
    examples, [false] for the adverb examples. *)
Definition part (b : bool) (x : delta) : list Example :=
  if b then d_adj x else d_adv x.

Definition part_label (b : bool) : string := if b then "ADJ" else "ADV".

Section Discovery.

Context (w : world) (d : dicts) (input_dir : string).

(** The sentences of a run in discovery order: file order, then line
    order, then sentence order. *)
Definition file_parts (b : bool) (filename : string) : list Example :=
  file_lines w input_dir filename ≫= λ raw,
  line_sents w raw ≫= λ sent, part b (sent_delta d sent).

Definition discovered (b : bool) : list Example :=
  listed w input_dir ≫= file_parts b.

(** The calls a complete run makes, in order. *)
Definition line_events (raw : string) : list event :=
  if line_kept raw then [Annotated (Str.strip raw)] else [].

Definition file_events (filename : string) : list event :=
  Opened (input_dir +:+ filename)
    :: (file_lines w input_dir filename ≫= line_events).

Definition complete_log : list event :=
  Listed input_dir :: (listed w input_dir ≫= file_events).

End Discovery.

(** An example as the collector builds it from a token that passed one of
    the two tests. *)
Definition well_formed (d : dicts) (ex : Example) : Prop :=
  (label ex = "ADJ" ∨ label ex = "ADV") ∧
  ind ex < length (sentence ex) ∧
  ∃ token_text, sentence ex !! ind ex = Some token_text ∧
    (label ex = "ADJ" → is_Some (adj_to_adv d !! token_text)) ∧
    (label ex = "ADV" → is_Some (adv_to_adj d !! token_text)).

(** A small corpus to run the statements on: one directory with two
    files, markup and blank lines, and an annotator that knows three
    lines. *)
Definition sample_token (t tag head : string) : Token :=
  {| text := t; tag_ := tag; head_tag_ := head |}.

Definition sample_world : world := {|
  listdir := λ dir,
    if String.eqb dir "blogs/" then Some ["1.xml"; "2.xml"] else None;
  readlines := λ path,
    if String.eqb path "blogs/1.xml"
    then Some ["<Blog>"; ""; "  he ran quick  "; "  <post>"]
    else if String.eqb path "blogs/2.xml"
    then Some ["she sang quickly"; "   "]
    else None;
  annotate := λ line,
    if String.eqb line "he ran quick"
    then Some [[sample_token "he" "PRP" "VBD"; sample_token "ran" "VBD" "VBD";
                sample_token "quick" "JJ" "VBD"]]
    else if String.eqb line "she sang quickly"
    then Some [[sample_token "she" "PRP" "VBD"; sample_token "sang" "VBD" "VBD";
                sample_token "quickly" "RB" "VBD"]]
    else None
|}.

Definition sample_sentence : list Token :=
  [sample_token "he" "PRP" "VBD"; sample_token "ran" "VBD" "VBD";
   sample_token "quick" "JJ" "VBD"].

Definition sample_ADJ : list string := ["quick"; "historic"; "historical"].
Definition sample_ADV : gset string := {["quickly"; "historically"]}.

(** The path that names the entry [filename] of the directory
    [input_dir]: the directory path, a separator unless the path already
    ends with one, and the name. *)
Definition entry_path (input_dir filename : string) : string :=
  if Str.endswith input_dir "/" then input_dir +:+ filename
  else input_dir +:+ "/" +:+ filename.

(** Lines 22-26: [set(line.strip() for line in f.readlines())], the way
    both word lists are read. *)
Definition load_lexicon (lines : list string) : gset string :=
  list_to_set (Str.strip <$> lines).

(** Every character of the string is a space for [isspace]. *)
Fixpoint all_space (s : string) : bool :=
  match s with
  | "" => true
  | String c s' => Str.isspace c && all_space s'
  end.

(** The paths of the [open] calls of a log, in order. *)
Definition opened_paths (l : list event) : list string :=
  omap (λ e, match e with Opened path => Some path | _ => None end) l.

(** The call of the log entry is one the world answers with an
    exception. *)
Definition failing_call (w : world) (e : event) : Prop :=
  match e with
  | Listed dir => listdir w dir = None
  | Opened path => readlines w path = None
  | Annotated line => annotate w line = None
  end.

(** * Properties *)

(** ** Strings *)

Lemma app_nonempty (s : string) c r : s +:+ String c r ≠ "".
Proof. destruct s; discriminate. Qed.

Lemma app_assoc_str (s t u : string) : (s +:+ t) +:+ u = s +:+ (t +:+ u).
Proof. induction s as [|c s IH]; simpl; [done | by rewrite IH]. Qed.

Lemma app_empty_r (s : string) : s +:+ "" = s.
Proof. induction s as [|c s IH]; simpl; [done | by rewrite IH]. Qed.

Lemma app_length_str (s t : string) :
  String.length (s +:+ t) = String.length s + String.length t.
Proof. induction s as [|c s IH]; simpl; [done | by rewrite IH]. Qed.

Lemma endswith_spec s suf : Str.endswith s suf = true ↔ ends_in suf s.
Proof.
  unfold ends_in. induction s as [|c s IH].
  - destruct suf as [|d suf]; simpl.
    + split; [by exists "" | done].
    + split; [done |]. intros [stem H]. symmetry in H. by apply app_nonempty in H.
  - change (Str.endswith (String c s) suf)
      with (if String.eqb (String c s) suf then true else Str.endswith s suf).
    destruct (String.eqb (String c s) suf) eqn:E.
    + apply String.eqb_eq in E as <-. split; [by exists "" | done].
    + rewrite IH. split.
      * intros [stem ->]. by exists (String c stem).
      * intros [[|e stem] H]; simpl in H.
        -- subst suf. by rewrite String.eqb_refl in E.
        -- injection H as -> ->. by exists stem.
Qed.

Lemma endswith_false s suf : Str.endswith s suf = false ↔ ¬ ends_in suf s.
Proof. rewrite <- endswith_spec. by destruct (Str.endswith s suf). Qed.

Lemma startswith_spec s p : Str.startswith s p = true ↔ ∃ r, s = p +:+ r.
Proof.
  revert s. induction p as [|c p IH]; intros s; simpl.
  - split; [by exists s | done].
  - destruct s as [|d s].
    + split; [done | by intros [r H]].
    + rewrite andb_true_iff, IH, Ascii.eqb_eq. split.
      * intros [-> [r ->]]. by exists r.
      * intros [r H]. injection H as -> ->. eauto.
Qed.

Lemma drop_last_snoc stem c : Str.drop_last (stem +:+ String c "") = stem.
Proof.
  induction stem as [|d stem IH]; simpl; [done |].
  destruct (stem +:+ String c "") eqn:E.
  - by apply app_nonempty in E.
  - by rewrite IH.
Qed.

Lemma eqb_false_iff (s t : string) : String.eqb s t = false ↔ s ≠ t.
Proof. apply String.eqb_neq. Qed.

(** ** The mapper *)

Lemma guard_spec r a : guard r a = true ↔ matches r a.
Proof.
  destruct r; simpl;
    rewrite ?andb_true_iff, ?negb_true_iff, ?endswith_spec, ?eqb_false_iff;
    done.
Qed.

Lemma guard_false r a : guard r a = false ↔ ¬ matches r a.
Proof. rewrite <- guard_spec. by destruct (guard r a). Qed.

Lemma suffix_rules_guard a :
  suffix_rules a =
    if guard RuleLe a then Str.drop_last a +:+ "y"
    else if guard RuleY a then Str.drop_last a +:+ "ily"
    else if guard RuleIc a then a +:+ "ally"
    else if guard RuleLl a then a +:+ "y"
    else a +:+ "ly".
Proof. reflexivity. Qed.

Lemma rewrites_le a cand :
  rewrites RuleLe a cand → cand = Str.drop_last a +:+ "y".
Proof. intros (stem & -> & ->). by rewrite drop_last_snoc. Qed.

Lemma rewrites_y a cand :
  rewrites RuleY a cand → cand = Str.drop_last a +:+ "ily".
Proof. intros (stem & -> & ->). by rewrite drop_last_snoc. Qed.

Lemma ends_in_last a c suf :
  ends_in (suf +:+ String c "") a → ∃ stem, a = stem +:+ String c "".
Proof. intros [stem ->]. exists (stem +:+ suf). symmetry. apply app_assoc_str. Qed.

Lemma first_match_suffix_rules a cand :
  first_match a cand ↔ suffix_rules a = cand.
Proof.
  rewrite suffix_rules_guard. split.
  - intros (i & r & Hi & Hm & Hfirst & Hrw).
    assert (Hno : ∀ j r', j < i → precedence !! j = Some r' → guard r' a = false).
    { intros j r' Hj Hr'. apply guard_false. eauto. }
    apply guard_spec in Hm.
    do 5 (destruct i as [|i];
          [ injection Hi as <-;
            rewrite ?(Hno 0 RuleLe), ?(Hno 1 RuleY), ?(Hno 2 RuleIc),
                    ?(Hno 3 RuleLl) by (done || lia);
            rewrite ?Hm;
            first [ by apply rewrites_le in Hrw
                  | by apply rewrites_y in Hrw
                  | by simpl in Hrw ]
          | ]).
    done.
  - intros <-.
    destruct (guard RuleLe a) eqn:G1.
    { exists 0, RuleLe. split_and!; [done | by apply guard_spec | lia |].
      apply guard_spec in G1 as [H _].
      destruct (ends_in_last a (Ascii.ascii_of_nat 101) "l" H) as [stem ->].
      exists stem. by rewrite drop_last_snoc. }
    destruct (guard RuleY a) eqn:G2.
    { exists 1, RuleY. split_and!; [done | by apply guard_spec | |].
      - intros [|j] r' Hj Hr'; [| lia]. injection Hr' as <-. by apply guard_false.
      - apply guard_spec in G2 as [[stem ->] _].
        exists stem. by rewrite drop_last_snoc. }
    destruct (guard RuleIc a) eqn:G3.
    { exists 2, RuleIc. split_and!; [done | by apply guard_spec | | done].
      intros [|[|j]] r' Hj Hr'; [| | lia]; injection Hr' as <-; by apply guard_false. }
    destruct (guard RuleLl a) eqn:G4.
    { exists 3, RuleLl. split_and!; [done | by apply guard_spec | | done].
      intros [|[|[|j]]] r' Hj Hr'; [| | | lia]; injection Hr' as <-; by apply guard_false. }
    exists 4, RuleDefault. split_and!; [done | done | | done].
    intros [|[|[|[|j]]]] r' Hj Hr'; [| | | | lia]; injection Hr' as <-; by apply guard_false.
Qed.

Lemma suffix_rules_nonempty a : suffix_rules a ≠ "".
Proof.
  rewrite suffix_rules_guard.
  repeat match goal with |- context [if ?b then _ else _] => destruct b end;
    apply app_nonempty.
Qed.

(** The mapper past its first two tests: the exception table, then the
    suffix rules behind the validity check. *)
Lemma transform_not_adverb ADV a :
  Str.endswith a "ly" = false → a ∉ ADV →
  transform_adj_to_adv ADV a =
    if String.eqb a "good" then Some "well"
    else if bool_decide (a ∈ ["whole"; "true"])
    then Some (Str.drop_last a +:+ "ly")
    else gate ADV (suffix_rules a).
Proof.
  intros Hly Hadv. unfold transform_adj_to_adv.
  by rewrite Hly, (bool_decide_eq_false_2 _ Hadv).
Qed.

Lemma transform_adverb ADV a :
  Str.endswith a "ly" = false → a ∈ ADV → transform_adj_to_adv ADV a = Some a.
Proof.
  intros Hly Hadv. unfold transform_adj_to_adv.
  by rewrite Hly, (bool_decide_eq_true_2 _ Hadv).
Qed.

Lemma transform_rules ADV a :
  Str.endswith a "ly" = false → a ∉ ADV → a ∉ ["good"; "whole"; "true"] →
  transform_adj_to_adv ADV a = gate ADV (suffix_rules a).
Proof.
  intros Hly Hadv Hexc. rewrite transform_not_adverb by done.
  destruct (String.eqb a "good") eqn:E.
  { apply String.eqb_eq in E as ->. exfalso. apply Hexc. apply elem_of_cons. by left. }
  rewrite bool_decide_eq_false_2; [done |].
  intros Hin. apply Hexc. apply elem_of_cons. by right.
Qed.

(** Every result of the mapper is a word of the adverb list or comes from
    the exception table. *)
Lemma transform_result ADV a adv :
  transform_adj_to_adv ADV a = Some adv →
  adv ∈ ADV ∨ (a, adv) ∈ [("good", "well"); ("whole", "wholly"); ("true", "truly")].
Proof.
  unfold transform_adj_to_adv, gate.
  destruct (Str.endswith a "ly"); [done |].
  case_bool_decide as Hadv; [intros [= <-]; by left |].
  destruct (String.eqb a "good") eqn:E.
  { apply String.eqb_eq in E as ->. intros [= <-]. right. set_solver. }
  case_bool_decide as Hexc.
  { intros [= <-]. right.
    apply elem_of_cons in Hexc as [-> | Hexc]; [set_solver |].
    apply elem_of_cons in Hexc as [-> | Hexc]; [set_solver |].
    by apply elem_of_nil in Hexc. }
  case_bool_decide; [intros [= <-]; by left | done].
Qed.

(** The mapper returns the empty string for the empty word only. *)
Lemma transform_empty ADV a : transform_adj_to_adv ADV a = Some "" → a = "".
Proof.
  unfold transform_adj_to_adv.
  destruct (Str.endswith a "ly"); [done |].
  case_bool_decide as Hadv; [by intros [= ->] |].
  destruct (String.eqb a "good"); [done |].
  case_bool_decide as Hexc.
  { intros [= Hnil]. by apply app_nonempty in Hnil. }
  case_bool_decide as Hgate; [| done].
  intros [= Hnil]. by apply suffix_rules_nonempty in Hnil.
Qed.

(** The first test of the mapper. *)
Lemma ly_ends_no_mapping ADV a :
  ends_in "ly" a → transform_adj_to_adv ADV a = None.
Proof.
  intros H%endswith_spec. unfold transform_adj_to_adv. by rewrite H.
Qed.

(** C7: for every adjective that ends in "ly" (a stem followed by "ly")
    the mapper returns no mapping, whatever the adverb list holds, the
    adjective itself included: the test comes before every other rule. *)
Theorem ly_adjective_has_no_mapping (ADV : gset string) (adjective : string) :
  ends_in "ly" adjective → transform_adj_to_adv ADV adjective = None.
Proof.
  intros H. apply endswith_spec in H.
  unfold transform_adj_to_adv. by rewrite H.
Qed.

Lemma ly_adjective_has_no_mapping_witness :
  ends_in "ly" "friendly" ∧
  transform_adj_to_adv {["friendly"; "friendlily"]} "friendly" = None.
Proof.
  assert (H : ends_in "ly" "friendly") by (exists "friend"; reflexivity).
  split; [exact H | exact (ly_adjective_has_no_mapping _ _ H)].
Defined.

(** C6, as stated, fails: with "good" in the adverb list the mapper returns
    "good" itself, since the same-form test comes before the exception
    table. *)
Lemma exception_table_unconditional_fails :
  ¬ (∀ ADV : gset string,
       transform_adj_to_adv ADV "good" = Some "well" ∧
       transform_adj_to_adv ADV "whole" = Some "wholly" ∧
       transform_adj_to_adv ADV "true" = Some "truly").
Proof.
  intros H. destruct (H {["good"]}) as [Hgood _].
  vm_compute in Hgood. discriminate.
Qed.

(** C6, amended: "good", "whole" and "true" map to "well", "wholly" and
    "truly" whenever the word is not itself in the adverb list, and
    whether or not the result is in that list; a word of the three that
    is in the adverb list maps to itself. *)
Theorem exception_table (ADV : gset string) :
  ("good" ∉ ADV → transform_adj_to_adv ADV "good" = Some "well") ∧
  ("whole" ∉ ADV → transform_adj_to_adv ADV "whole" = Some "wholly") ∧
  ("true" ∉ ADV → transform_adj_to_adv ADV "true" = Some "truly") ∧
  (∀ a, a ∈ ["good"; "whole"; "true"] → a ∈ ADV →
        transform_adj_to_adv ADV a = Some a).
Proof.
  split_and!.
  - intros H. by rewrite transform_not_adverb.
  - intros H. by rewrite transform_not_adverb.
  - intros H. by rewrite transform_not_adverb.
  - intros a Ha Hadv. apply transform_adverb; [| done].
    repeat (apply elem_of_cons in Ha as [-> | Ha]; [done |]).
    by apply elem_of_nil in Ha.
Qed.

Lemma exception_table_witness :
  transform_adj_to_adv {["well"; "good"]} "whole" = Some "wholly" ∧
  transform_adj_to_adv {["well"; "good"]} "true" = Some "truly" ∧
  transform_adj_to_adv ∅ "good" = Some "well" ∧
  transform_adj_to_adv {["well"; "good"]} "good" = Some "good".
Proof.
  destruct (exception_table {["well"; "good"]}) as (_ & Hwhole & Htrue & Hsame).
  destruct (exception_table ∅) as (Hgood & _).
  split_and!.
  - apply Hwhole. vm_compute. intros H. discriminate H.
  - apply Htrue. vm_compute. intros H. discriminate H.
  - apply Hgood. vm_compute. intros H. discriminate H.
  - apply Hsame; [apply elem_of_cons; by left | vm_compute; reflexivity].
Defined.

(** C5, as stated, fails on its instance: with both "responsible" and
    "responsibly" in the adverb list the mapper returns "responsible",
    and with "responsible" alone it returns "responsible" although
    "responsibly" is absent. *)
Lemma validity_gate_responsible_fails :
  ¬ (∀ ADV : gset string,
       (transform_adj_to_adv ADV "responsible" = Some "responsibly"
        ↔ "responsibly" ∈ ADV) ∧
       ("responsibly" ∉ ADV →
        transform_adj_to_adv ADV "responsible" = None)).
Proof.
  intros H. destruct (H {["responsible"; "responsibly"]}) as [[_ Hback] _].
  assert (Hin : "responsibly" ∈ ({["responsible"; "responsibly"]} : gset string))
    by (vm_compute; reflexivity).
  specialize (Hback Hin). vm_compute in Hback. discriminate.
Qed.

(** C5, amended: a candidate computed by the suffix rules is returned only
    when it is in the adverb list and is rejected otherwise; every result
    of the mapper is a word of the adverb list or one of the three results
    of the exception table, which are returned without the check.  For
    "responsible" outside the adverb list, the mapper returns "responsibly"
    if and only if "responsibly" is in the list and returns no mapping
    otherwise; "responsible" inside the adverb list maps to itself. *)
Theorem validity_gate (ADV : gset string) :
  (∀ a, ¬ ends_in "ly" a → a ∉ ADV → a ∉ ["good"; "whole"; "true"] →
        (suffix_rules a ∈ ADV →
         transform_adj_to_adv ADV a = Some (suffix_rules a)) ∧
        (suffix_rules a ∉ ADV → transform_adj_to_adv ADV a = None)) ∧
  (∀ a adv, transform_adj_to_adv ADV a = Some adv →
        adv ∈ ADV ∨
        (a, adv) ∈ [("good", "well"); ("whole", "wholly"); ("true", "truly")]) ∧
  ("responsible" ∉ ADV →
        (transform_adj_to_adv ADV "responsible" = Some "responsibly"
         ↔ "responsibly" ∈ ADV) ∧
        ("responsibly" ∉ ADV →
         transform_adj_to_adv ADV "responsible" = None)) ∧
  ("responsible" ∈ ADV →
        transform_adj_to_adv ADV "responsible" = Some "responsible").
Proof.
  split_and!.
  - intros a Hly Hadv Hexc. apply endswith_false in Hly.
    rewrite transform_rules by done. unfold gate.
    split; intros Hcand.
    + by rewrite bool_decide_eq_true_2.
    + by rewrite bool_decide_eq_false_2.
  - apply transform_result.
  - intros Hadv. rewrite transform_not_adverb by done.
    assert (Hcand : suffix_rules "responsible" = "responsibly") by reflexivity.
    assert (Hmap : (if String.eqb "responsible" "good" then Some "well"
                    else if bool_decide ("responsible" ∈ ["whole"; "true"])
                    then Some (Str.drop_last "responsible" +:+ "ly")
                    else gate ADV (suffix_rules "responsible"))
                   = gate ADV "responsibly").
    { rewrite Hcand. rewrite bool_decide_eq_false_2; [done |].
      intros Hin. repeat (apply elem_of_cons in Hin as [[=] | Hin]).
      by apply elem_of_nil in Hin. }
    rewrite Hmap. clear Hmap Hcand. unfold gate. case_bool_decide as Hin.
    + split; [done | by intros ?].
    + split; [| done]. split; [done | by intros ?].
  - intros Hadv. by apply transform_adverb.
Qed.

Lemma validity_gate_witness :
  transform_adj_to_adv {["responsibly"]} "responsible" = Some "responsibly" ∧
  transform_adj_to_adv {["fully"]} "responsible" = None ∧
  transform_adj_to_adv {["fully"]} "full" = Some "fully" ∧
  transform_adj_to_adv {["responsible"]} "responsible" = Some "responsible".
Proof.
  destruct (validity_gate {["responsibly"]}) as (_ & _ & Hresp & _).
  destruct (validity_gate {["fully"]}) as (Hrules & _ & Hnone & _).
  destruct (validity_gate {["responsible"]}) as (_ & _ & _ & Hsame).
  split_and!.
  - apply Hresp; [vm_compute; intros H; discriminate H | vm_compute; reflexivity].
  - apply Hnone; vm_compute; intros H; discriminate H.
  - refine (proj1 (Hrules "full" _ _ _) _).
    + apply endswith_false. reflexivity.
    + vm_compute. intros H. discriminate H.
    + intros H. repeat (apply elem_of_cons in H as [[=] | H]).
      by apply elem_of_nil in H.
    + vm_compute. reflexivity.
  - apply Hsame. vm_compute. reflexivity.
Defined.

(** C4: for an adjective that does not end in "ly", is not in the adverb
    list and is none of "good", "whole", "true", the candidate adverb the
    mapper computes is the one selected by the first matching rule of the
    list le / y / ic / ll / default, it is the only one, and the mapper
    returns it behind the validity check.  "angry" yields the candidate
    "angrily"; "shy" does not match the y rule and gets the default
    candidate "shyly". *)
Theorem suffix_rule_precedence :
  (∀ (ADV : gset string) (a : string),
      ¬ ends_in "ly" a → a ∉ ADV → a ∉ ["good"; "whole"; "true"] →
      ∃ cand, first_match a cand ∧
              (∀ c, first_match a c → c = cand) ∧
              suffix_rules a = cand ∧
              transform_adj_to_adv ADV a = gate ADV cand) ∧
  (first_match "angry" "angrily" ∧ suffix_rules "angry" = "angrily") ∧
  (first_match "shy" "shyly" ∧ suffix_rules "shy" = "shyly" ∧
   ¬ matches RuleY "shy" ∧ rewrites RuleDefault "shy" "shyly").
Proof.
  split_and!.
  - intros ADV a Hly Hadv Hexc. exists (suffix_rules a). split_and!.
    + by apply first_match_suffix_rules.
    + intros c Hc. by apply first_match_suffix_rules in Hc.
    + done.
    + apply endswith_false in Hly. by apply transform_rules.
  - by apply first_match_suffix_rules.
  - done.
  - by apply first_match_suffix_rules.
  - done.
  - by intros [_ H].
  - done.
Qed.

Lemma suffix_rule_precedence_witness :
  transform_adj_to_adv {["freely"; "idiotically"]} "idiotic" = Some "idiotically".
Proof.
  destruct suffix_rule_precedence as [Hrules _].
  destruct (Hrules {["freely"; "idiotically"]} "idiotic") as (cand & _ & _ & Hcand & Hmap).
  - apply endswith_false. reflexivity.
  - vm_compute. intros H. discriminate H.
  - intros H. repeat (apply elem_of_cons in H as [[=] | H]).
    by apply elem_of_nil in H.
  - rewrite Hmap, <- Hcand. vm_compute. reflexivity.
Defined.

(** ** The dictionaries *)

Lemma build_dicts_snoc ADV l a :
  build_dicts ADV (l ++ [a]) = build_step ADV (build_dicts ADV l) a.
Proof. unfold build_dicts. apply foldl_snoc. Qed.

(** A round of the loop either records the pair in both dictionaries or
    leaves them alone. *)
Lemma build_step_cases ADV d a :
  (∃ adv, recorded ADV a adv ∧
          build_step ADV d a =
            Dicts (<[a := adv]> (adj_to_adv d)) (<[adv := a]> (adv_to_adj d)))
  ∨ ((∀ adv, ¬ recorded ADV a adv) ∧ build_step ADV d a = d).
Proof.
  unfold build_step, recorded.
  destruct (transform_adj_to_adv ADV a) as [adv|] eqn:Ht.
  - destruct (String.eqb adv a) eqn:E.
    + apply String.eqb_eq in E as ->. right.
      rewrite andb_false_r. split; [| done]. by intros ? [[= <-] ?].
    + apply eqb_false_iff in E. unfold Str.truthy.
      destruct (String.eqb adv "") eqn:E0.
      * apply String.eqb_eq in E0 as ->.
        apply transform_empty in Ht. by subst a.
      * left. exists adv. by simpl.
  - right. split; [| done]. by intros ? [? ?].
Qed.

Lemma recorded_fun ADV a adv adv' :
  recorded ADV a adv → recorded ADV a adv' → adv = adv'.
Proof. intros [H1 _] [H2 _]. congruence. Qed.

Lemma adj_to_adv_lookup ADV ADJ a adv :
  adj_to_adv (build_dicts ADV ADJ) !! a = Some adv ↔
  a ∈ ADJ ∧ recorded ADV a adv.
Proof.
  induction ADJ as [|x l IH] using rev_ind.
  - simpl. rewrite lookup_empty, elem_of_nil. by split; [| intros [[] _]].
  - rewrite build_dicts_snoc, elem_of_app, list_elem_of_singleton.
    destruct (build_step_cases ADV (build_dicts ADV l) x)
      as [(advx & Hx & ->) | [Hx ->]]; simpl.
    + rewrite lookup_insert. case_decide as Hax.
      * subst x. split.
        -- intros [= <-]. split; [by right | done].
        -- intros [_ Ha]. f_equal. eapply recorded_fun; eauto.
      * rewrite IH. split.
        -- intros [Hin Ha]. split; [by left | done].
        -- intros [[Hin | ->] Ha]; [done | by destruct Hax].
    + rewrite IH. split.
      * intros [Hin Ha]. split; [by left | done].
      * intros [[Hin | ->] Ha]; [done | by apply Hx in Ha].
Qed.

Lemma adv_to_adj_lookup ADV ADJ adv a :
  adv_to_adj (build_dicts ADV ADJ) !! adv = Some a →
  a ∈ ADJ ∧ recorded ADV a adv.
Proof.
  induction ADJ as [|x l IH] using rev_ind.
  - simpl. by rewrite lookup_empty.
  - rewrite build_dicts_snoc, elem_of_app, list_elem_of_singleton.
    destruct (build_step_cases ADV (build_dicts ADV l) x)
      as [(advx & Hx & ->) | [Hx ->]]; simpl.
    + rewrite lookup_insert. case_decide as Hax.
      * subst advx. intros [= <-]. split; [by right | done].
      * intros H. destruct (IH H) as [Hin Ha]. split; [by left | done].
    + intros H. destruct (IH H) as [Hin Ha]. split; [by left | done].
Qed.

(** The reverse dictionary keeps, for an adverb, the adjective visited
    last among those recorded with it. *)
Lemma adv_to_adj_last ADV l1 a l2 adv :
  recorded ADV a adv →
  (∀ b, b ∈ l2 → ¬ recorded ADV b adv) →
  adv_to_adj (build_dicts ADV (l1 ++ a :: l2)) !! adv = Some a.
Proof.
  intros Ha. induction l2 as [|x l2 IH] using rev_ind; intros Hlater.
  - rewrite build_dicts_snoc.
    destruct (build_step_cases ADV (build_dicts ADV l1) a)
      as [(adv' & Hx & ->) | [Hx _]]; simpl.
    + rewrite (recorded_fun _ _ _ _ Ha Hx). apply lookup_insert_eq.
    + by apply Hx in Ha.
  - replace (l1 ++ a :: l2 ++ [x]) with ((l1 ++ a :: l2) ++ [x])
      by (by rewrite <- app_assoc).
    rewrite build_dicts_snoc.
    assert (Hx : ¬ recorded ADV x adv).
    { apply Hlater. apply elem_of_app. right. by apply list_elem_of_singleton. }
    assert (IH' : adv_to_adj (build_dicts ADV (l1 ++ a :: l2)) !! adv = Some a).
    { apply IH. intros b Hb. apply Hlater. apply elem_of_app. by left. }
    destruct (build_step_cases ADV (build_dicts ADV (l1 ++ a :: l2)) x)
      as [(advx & Hx' & ->) | [_ ->]]; simpl; [| done].
    rewrite lookup_insert_ne; [done |]. by intros ->.
Qed.

(** Among the adjectives recorded with [adv] one is visited last. *)
Lemma last_recorded ADV (adv : string) l :
  (∃ a, a ∈ l ∧ recorded ADV a adv) →
  ∃ l1 a l2, l = l1 ++ a :: l2 ∧ recorded ADV a adv ∧
             ∀ b, b ∈ l2 → ¬ recorded ADV b adv.
Proof.
  induction l as [|x l IH] using rev_ind.
  - by intros (a & ?%elem_of_nil & _).
  - intros (a & Hin & Ha).
    destruct (decide (recorded ADV x adv)) as [Hx | Hno].
    + exists l, x, []. split_and!; try done. by intros b ?%elem_of_nil.
    + apply elem_of_app in Hin as [Hin | ->%list_elem_of_singleton]; [| done].
      destruct IH as (l1 & a' & l2 & -> & Ha' & Hlater); [by eauto |].
      exists l1, a', (l2 ++ [x]). split_and!; try done.
      * by rewrite <- app_assoc.
      * intros b [Hb | ->%list_elem_of_singleton]%elem_of_app; [by apply Hlater | done].
Qed.

(** C1, as stated, fails: "historic" and "historical" both map to
    "historically"; the second write to the reverse dictionary replaces
    the first, so the reverse entry of "historically" is "historical" and
    the entry historic -> historically has no reverse entry. *)
Lemma reverse_mapping_overwritten :
  ¬ (∀ (ADV : gset string) (ADJ : list string) (a adv : string),
       NoDup ADJ → a ∈ ADJ →
       transform_adj_to_adv ADV a = Some adv → adv ≠ a →
       adj_to_adv (build_dicts ADV ADJ) !! a = Some adv ∧
       adv_to_adj (build_dicts ADV ADJ) !! adv = Some a).
Proof.
  intros H.
  destruct (H {["historically"]} ["historic"; "historical"]
              "historic" "historically") as [_ Hrev].
  - apply (bool_decide_unpack _). vm_compute. exact I.
  - apply elem_of_cons. by left.
  - vm_compute. reflexivity.
  - discriminate.
  - vm_compute in Hrev. discriminate.
Qed.

(** C1, amended: for every adjective [a] of the list for which the mapper
    returns an adverb [adv] other than [a], the adjective -> adverb
    dictionary holds [a ↦ adv] and the adverb -> adjective dictionary has
    an entry for [adv]; that entry is the adjective recorded with [adv]
    that the loop visits last, and it is [a] when no other adjective of
    the list maps to [adv].  Every entry [a ↦ adv] of the first dictionary
    comes from the mapper and has [adv] as a key of the second; every
    entry [adv ↦ a] of the second has the reverse entry [a ↦ adv] in the
    first; no entry of either maps a word to itself. *)
Theorem reverse_mapping_consistency (ADV : gset string) (ADJ : list string) :
  let d := build_dicts ADV ADJ in
  (∀ a adv, a ∈ ADJ → transform_adj_to_adv ADV a = Some adv → adv ≠ a →
     adj_to_adv d !! a = Some adv ∧
     (∃ a', adv_to_adj d !! adv = Some a' ∧ a' ∈ ADJ ∧ recorded ADV a' adv) ∧
     ((∀ b, b ∈ ADJ → recorded ADV b adv → b = a) →
      adv_to_adj d !! adv = Some a)) ∧
  (∀ l1 a l2 adv, ADJ = l1 ++ a :: l2 → recorded ADV a adv →
     (∀ b, b ∈ l2 → ¬ recorded ADV b adv) →
     adv_to_adj d !! adv = Some a) ∧
  (∀ a adv, adj_to_adv d !! a = Some adv →
     adv ≠ a ∧ a ∈ ADJ ∧ transform_adj_to_adv ADV a = Some adv ∧
     is_Some (adv_to_adj d !! adv)) ∧
  (∀ adv a, adv_to_adj d !! adv = Some a →
     a ≠ adv ∧ adj_to_adv d !! a = Some adv).
Proof.
  intros d.
  assert (Hkey : ∀ a adv, a ∈ ADJ → recorded ADV a adv →
            ∃ a', adv_to_adj d !! adv = Some a' ∧ a' ∈ ADJ ∧ recorded ADV a' adv).
  { intros a adv Hin Ha.
    destruct (last_recorded ADV adv ADJ) as (l1 & a' & l2 & HADJ & Ha' & Hlater);
      [by eauto |].
    exists a'. split_and!; [| | done].
    - unfold d. rewrite HADJ. by apply adv_to_adj_last.
    - rewrite HADJ. apply elem_of_app. right. apply elem_of_cons. by left. }
  split_and!.
  - intros a adv Hin Ht Hne.
    assert (Ha : recorded ADV a adv) by done.
    split_and!.
    + by apply adj_to_adv_lookup.
    + by apply (Hkey a).
    + intros Honly. destruct (Hkey a adv Hin Ha) as (a' & Hlk & Hin' & Ha').
      by rewrite <- (Honly a' Hin' Ha').
  - intros l1 a l2 adv -> Ha Hlater. by apply adv_to_adj_last.
  - intros a adv [Hin [Ht Hne]]%adj_to_adv_lookup. split_and!; try done.
    destruct (Hkey a adv Hin) as (a' & Hlk & _); [done | by eexists].
  - intros adv a [Hin Ha]%adv_to_adj_lookup. split.
    + destruct Ha as [_ Hne]. by intros ->.
    + by apply adj_to_adv_lookup.
Qed.

Lemma reverse_mapping_consistency_witness :
  let d := build_dicts {["historically"; "quickly"]}
                       ["historic"; "quick"; "historical"] in
  adj_to_adv d !! "quick" = Some "quickly" ∧
  adv_to_adj d !! "quickly" = Some "quick" ∧
  adj_to_adv d !! "historic" = Some "historically" ∧
  adv_to_adj d !! "historically" = Some "historical".
Proof.
  intros d.
  destruct (reverse_mapping_consistency {["historically"; "quickly"]}
              ["historic"; "quick"; "historical"]) as (Hfwd & Hlast & _ & _).
  destruct (Hfwd "quick" "quickly") as (Hq & _ & Hqrev).
  { apply elem_of_cons. right. apply elem_of_cons. by left. }
  { vm_compute. reflexivity. }
  { discriminate. }
  destruct (Hfwd "historic" "historically") as (Hh & _ & _).
  { apply elem_of_cons. by left. }
  { vm_compute. reflexivity. }
  { discriminate. }
  split_and!.
  - exact Hq.
  - apply Hqrev. intros b Hb [Hmap _].
    repeat (apply elem_of_cons in Hb as [-> | Hb]);
      [vm_compute in Hmap; discriminate Hmap | reflexivity
      | vm_compute in Hmap; discriminate Hmap | by apply elem_of_nil in Hb].
  - exact Hh.
  - apply (Hlast ["historic"; "quick"] "historical" [] "historically").
    + reflexivity.
    + split; [vm_compute; reflexivity | discriminate].
    + intros b Hb. by apply elem_of_nil in Hb.
Defined.

(** ** Runs of the scanner *)

Lemma bind_run {A B} (m : M A) (f : A → M B) s :
  (m ≫= f) s =
    match m s with
    | (Returned a, s') => f a s'
    | (Raised, s') => (Raised, s')
    end.
Proof. reflexivity. Qed.

Lemma for_cons {A} (x : A) l body s :
  for_ (x :: l) body s =
    match body x s with
    | (Returned _, s') => for_ l body s'
    | (Raised, s') => (Raised, s')
    end.
Proof. reflexivity. Qed.

Lemma extend_nil s : extend s delta_nil = s.
Proof. destruct s. unfold extend. simpl. by rewrite !app_nil_r. Qed.

Lemma extend_app s x y : extend (extend s x) y = extend s (delta_app x y).
Proof. unfold extend. simpl. by rewrite !app_assoc. Qed.

Lemma delta_concat_adj {A} (F : A → delta) l :
  d_adj (delta_concat (F <$> l)) = l ≫= (λ x, d_adj (F x)).
Proof. induction l as [|x l IH]; simpl; [done | f_equal; exact IH]. Qed.

Lemma delta_concat_adv {A} (F : A → delta) l :
  d_adv (delta_concat (F <$> l)) = l ≫= (λ x, d_adv (F x)).
Proof. induction l as [|x l IH]; simpl; [done | f_equal; exact IH]. Qed.

Lemma delta_concat_log {A} (F : A → delta) l :
  d_log (delta_concat (F <$> l)) = l ≫= (λ x, d_log (F x)).
Proof. induction l as [|x l IH]; simpl; [done | f_equal; exact IH]. Qed.

Lemma emit_run e s : emit e s = (Returned (), extend s (Delta [] [] [e])).
Proof. unfold emit, extend. simpl. by rewrite !app_nil_r. Qed.

(** A loop whose body always returns. *)
Lemma for_total {A} (F : A → delta) (l : list A) (body : A → M unit) :
  (∀ x s, x ∈ l → body x s = (Returned (), extend s (F x))) →
  ∀ s, for_ l body s = (Returned (), extend s (delta_concat (F <$> l))).
Proof.
  induction l as [|x l IH]; intros Hbody s.
  - simpl. by rewrite extend_nil.
  - rewrite for_cons, Hbody by (apply elem_of_cons; by left).
    rewrite IH by (intros; apply Hbody; apply elem_of_cons; by right).
    simpl. by rewrite extend_app.
Qed.

(** A loop whose rounds return or raise according to [ok] and add [F]:
    it returns when every round does, and adds the parts of the rounds
    made. *)
Lemma for_run {A} (ok : A → bool) (F : A → delta) (l : list A)
    (body : A → M unit) :
  (∀ x s, x ∈ l → body x s = (outcome_of (ok x), extend s (F x))) →
  ∀ s, for_ l body s =
       (outcome_of (forallb ok l),
        extend s (delta_concat (F <$> until_raise ok l))).
Proof.
  induction l as [|x l IH]; intros Hbody s.
  - simpl. by rewrite extend_nil.
  - rewrite for_cons, Hbody by (apply elem_of_cons; by left).
    simpl. destruct (ok x); simpl.
    + rewrite IH by (intros; apply Hbody; apply elem_of_cons; by right).
      by rewrite extend_app.
    + unfold delta_app. simpl. by rewrite !app_nil_r.
Qed.

Lemma until_raise_all {A} (ok : A → bool) l :
  forallb ok l = true → until_raise ok l = l.
Proof.
  induction l as [|x l IH]; simpl; [done |].
  destruct (ok x); simpl; [| done]. intros H. by rewrite IH.
Qed.

Lemma until_raise_prefix {A} (ok : A → bool) l : until_raise ok l `prefix_of` l.
Proof.
  induction l as [|x l IH]; simpl; [done |].
  destruct (ok x).
  - by apply prefix_cons.
  - by exists l.
Qed.

(** *** One sentence *)

Lemma is_adj_adv_exclusive d token : is_adj d token = true → is_adv d token = false.
Proof.
  unfold is_adj, is_adv. rewrite !andb_true_iff. intros [[Htag _] _].
  apply String.eqb_eq in Htag. by rewrite Htag.
Qed.

Lemma collect_token_run d sent i token s :
  sent !! i = Some token →
  collect_token d sent i s = (Returned (), extend s (token_delta d sent i)).
Proof.
  intros Hi. unfold collect_token, token_delta. rewrite bind_run.
  unfold lift_option. rewrite Hi.
  fold (is_adj d token). fold (is_adv d token).
  destruct (is_adj d token); [| destruct (is_adv d token)].
  - unfold append_adj, extend, example_at. simpl. by rewrite !app_nil_r.
  - unfold append_adv, extend, example_at. simpl. by rewrite !app_nil_r.
  - by rewrite extend_nil.
Qed.

(** The loop over a sentence never raises. *)
Lemma collect_sent_run d sent s :
  collect_sent d sent s = (Returned (), extend s (sent_delta d sent)).
Proof.
  unfold collect_sent, sent_delta. apply for_total.
  intros i s0 [_ Hi]%elem_of_seq.
  destruct (lookup_lt_is_Some_2 sent i) as [token Htoken]; [lia |].
  by apply (collect_token_run d sent i token).
Qed.

Lemma example_at_inj sent i j lbl lbl' :
  example_at sent i lbl = example_at sent j lbl' → i = j ∧ lbl = lbl'.
Proof. by intros [= -> ->]. Qed.

Lemma sent_adj_elem d sent ex :
  ex ∈ d_adj (sent_delta d sent) ↔
  ∃ i token, sent !! i = Some token ∧ is_adj d token = true ∧
             ex = example_at sent i "ADJ".
Proof.
  unfold sent_delta. rewrite delta_concat_adj, list_elem_of_bind. split.
  - intros (i & Hex & _). unfold token_delta in Hex.
    destruct (sent !! i) as [token|] eqn:Hi; [| by apply elem_of_nil in Hex].
    destruct (is_adj d token) eqn:Ha.
    + apply list_elem_of_singleton in Hex. by exists i, token.
    + destruct (is_adv d token); by apply elem_of_nil in Hex.
  - intros (i & token & Hi & Ha & ->). exists i. split.
    + unfold token_delta. rewrite Hi, Ha. by apply list_elem_of_singleton.
    + apply elem_of_seq. apply lookup_lt_Some in Hi. lia.
Qed.

Lemma sent_adv_elem d sent ex :
  ex ∈ d_adv (sent_delta d sent) ↔
  ∃ i token, sent !! i = Some token ∧ is_adv d token = true ∧
             ex = example_at sent i "ADV".
Proof.
  unfold sent_delta. rewrite delta_concat_adv, list_elem_of_bind. split.
  - intros (i & Hex & _). unfold token_delta in Hex.
    destruct (sent !! i) as [token|] eqn:Hi; [| by apply elem_of_nil in Hex].
    destruct (is_adj d token) eqn:Ha; [by apply elem_of_nil in Hex |].
    destruct (is_adv d token) eqn:Hb; [| by apply elem_of_nil in Hex].
    apply list_elem_of_singleton in Hex. by exists i, token.
  - intros (i & token & Hi & Hb & ->). exists i. split.
    + unfold token_delta. rewrite Hi, Hb.
      destruct (is_adj d token) eqn:Ha.
      * apply is_adj_adv_exclusive in Ha. congruence.
      * by apply list_elem_of_singleton.
    + apply elem_of_seq. apply lookup_lt_Some in Hi. lia.
Qed.

(** A sentence makes no call to the outside world. *)
Lemma sent_delta_log d sent : d_log (sent_delta d sent) = [].
Proof.
  unfold sent_delta. rewrite delta_concat_log.
  induction (seq 0 (length sent)) as [|i l IH]; [done |].
  rewrite bind_cons, IH. unfold token_delta.
  destruct (sent !! i) as [token|]; [| done].
  by destruct (is_adj d token), (is_adv d token).
Qed.

Lemma get_truthy_spec (m : gmap string string) k :
  get_truthy m k = true ↔ ∃ v, m !! k = Some v ∧ v ≠ "".
Proof.
  unfold get_truthy, Str.truthy. destruct (m !! k) as [v|].
  - rewrite negb_true_iff, eqb_false_iff. split; [by eauto |].
    by intros (v' & [= <-] & ?).
  - split; [done | by intros (v & ? & _)].
Qed.

Lemma is_adj_spec d token :
  is_adj d token = true ↔
  tag_ token = "JJ" ∧ (∃ r, head_tag_ token = "VB" +:+ r) ∧
  ∃ v, adj_to_adv d !! text token = Some v ∧ v ≠ "".
Proof.
  unfold is_adj.
  rewrite !andb_true_iff, String.eqb_eq, startswith_spec, get_truthy_spec.
  tauto.
Qed.

Lemma is_adv_spec d token :
  is_adv d token = true ↔
  tag_ token = "RB" ∧ (∃ r, head_tag_ token = "VB" +:+ r) ∧
  ∃ v, adv_to_adj d !! text token = Some v ∧ v ≠ "".
Proof.
  unfold is_adv.
  rewrite !andb_true_iff, String.eqb_eq, startswith_spec, get_truthy_spec.
  tauto.
Qed.

(** The values of the built adjective -> adverb dictionary are non-empty,
    so a key of it is always true in a condition. *)
Lemma adj_to_adv_value ADV ADJ a adv :
  adj_to_adv (build_dicts ADV ADJ) !! a = Some adv → adv ≠ "".
Proof.
  intros (_ & Ht & Hne)%adj_to_adv_lookup ->.
  apply transform_empty in Ht. by subst a.
Qed.

(** C2, as stated, fails for the adverb branch: the test on the dictionary
    is the truth value of the looked-up word, and the reverse dictionary
    can hold the empty string.  With an empty line in the adjective list
    and "ly" in the adverb list it has the entry ly -> "", and the token
    "ly" tagged RB under a verb emits nothing. *)
Lemma collector_entry_not_enough :
  let d := build_dicts {["ly"]} [""] in
  let token := {| text := "ly"; tag_ := "RB"; head_tag_ := "VBD" |} in
  tag_ token = "RB" ∧ Str.startswith (head_tag_ token) "VB" = true ∧
  is_Some (adv_to_adj d !! text token) ∧
  ∀ s, collect_sent d [token] s = (Returned (), s).
Proof.
  intros d token. split_and!; [done | done | |].
  - exists "". vm_compute. reflexivity.
  - intros s. rewrite collect_sent_run.
    replace (sent_delta d [token]) with delta_nil by (vm_compute; reflexivity).
    by rewrite extend_nil.
Qed.

(** C2, amended: for every token of a sentence, the example labelled ADJ
    with the sentence's token texts and the token's position is appended
    exactly when the tag is "JJ", the head's tag starts with "VB" and the
    adjective -> adverb dictionary has an entry for the token's text; the
    example labelled ADV is appended exactly when the tag is "RB", the
    head's tag starts with "VB" and the adverb -> adjective dictionary has
    an entry for the token's text whose value is not the empty string,
    which is every entry unless the adjective list holds the empty string;
    no token appends both, and nothing else is appended. *)
Theorem collector_predicate (ADV : gset string) (ADJ : list string)
    (sent : list Token) (s : state) :
  let d := build_dicts ADV ADJ in
  ∃ new_adj new_adv,
    collect_sent d sent s =
      (Returned (), State (adj s ++ new_adj) (adv s ++ new_adv) (log s)) ∧
    (∀ i token, sent !! i = Some token →
       (example_at sent i "ADJ" ∈ new_adj ↔
          tag_ token = "JJ" ∧ (∃ r, head_tag_ token = "VB" +:+ r) ∧
          is_Some (adj_to_adv d !! text token)) ∧
       (example_at sent i "ADV" ∈ new_adv ↔
          tag_ token = "RB" ∧ (∃ r, head_tag_ token = "VB" +:+ r) ∧
          ∃ a, adv_to_adj d !! text token = Some a ∧ a ≠ "") ∧
       ("" ∉ ADJ →
          (example_at sent i "ADV" ∈ new_adv ↔
             tag_ token = "RB" ∧ (∃ r, head_tag_ token = "VB" +:+ r) ∧
             is_Some (adv_to_adj d !! text token))) ∧
       ¬ (example_at sent i "ADJ" ∈ new_adj ∧
          example_at sent i "ADV" ∈ new_adv)) ∧
    (∀ ex, ex ∈ new_adj → ∃ i, i < length sent ∧ ex = example_at sent i "ADJ") ∧
    (∀ ex, ex ∈ new_adv → ∃ i, i < length sent ∧ ex = example_at sent i "ADV").
Proof.
  intros d. exists (d_adj (sent_delta d sent)), (d_adv (sent_delta d sent)).
  split; [| split_and!].
  - rewrite collect_sent_run. unfold extend.
    by rewrite sent_delta_log, app_nil_r.
  - intros i token Hi.
    assert (HA : example_at sent i "ADJ" ∈ d_adj (sent_delta d sent) ↔
                 is_adj d token = true).
    { rewrite sent_adj_elem. split.
      - intros (j & token' & Hj & Ha & [<- _]%example_at_inj). congruence.
      - intros Ha. by exists i, token. }
    assert (HB : example_at sent i "ADV" ∈ d_adv (sent_delta d sent) ↔
                 is_adv d token = true).
    { rewrite sent_adv_elem. split.
      - intros (j & token' & Hj & Hb & [<- _]%example_at_inj). congruence.
      - intros Hb. by exists i, token. }
    split_and!.
    + rewrite HA, is_adj_spec. split.
      * intros (Htag & Hhead & v & Hv & _). by eauto.
      * intros (Htag & Hhead & [v Hv]). split_and!; [done | done |].
        exists v. split; [done |]. by eapply adj_to_adv_value.
    + by rewrite HB, is_adv_spec.
    + intros Hempty. rewrite HB, is_adv_spec. split.
      * intros (Htag & Hhead & v & Hv & _). by eauto.
      * intros (Htag & Hhead & [v Hv]). split_and!; [done | done |].
        exists v. split; [done |].
        apply adv_to_adj_lookup in Hv as [Hin _]. by intros ->.
    + rewrite HA, HB. intros [Ha Hb].
      apply is_adj_adv_exclusive in Ha. congruence.
  - intros ex (i & token & Hi & _ & ->)%sent_adj_elem.
    exists i. split; [by eapply lookup_lt_Some | done].
  - intros ex (i & token & Hi & _ & ->)%sent_adv_elem.
    exists i. split; [by eapply lookup_lt_Some | done].
Qed.

Lemma collector_predicate_witness :
  ∃ new_adj new_adv,
    collect_sent (build_dicts sample_ADV sample_ADJ) sample_sentence initial
    = (Returned (), State new_adj new_adv []) ∧
    example_at sample_sentence 2 "ADJ" ∈ new_adj ∧
    example_at sample_sentence 1 "ADJ" ∉ new_adj.
Proof.
  destruct (collector_predicate sample_ADV sample_ADJ sample_sentence initial)
    as (new_adj & new_adv & Hrun & Htoken & _).
  exists new_adj, new_adv. split_and!.
  - exact Hrun.
  - destruct (Htoken 2 (sample_token "quick" "JJ" "VBD") eq_refl) as (Hadj & _).
    apply Hadj. split_and!.
    + reflexivity.
    + exists "D". reflexivity.
    + exists "quickly". vm_compute. reflexivity.
  - destruct (Htoken 1 (sample_token "ran" "VBD" "VBD") eq_refl) as (Hadj & _).
    intros Hin. apply Hadj in Hin as (Htag & _). discriminate Htag.
Defined.

(** *** Lines, files and the directory *)

Section Runs.

Context (w : world).

Lemma scan_line_run d raw s :
  scan_line w d raw s = (outcome_of (line_ok w raw), extend s (line_delta w d raw)).
Proof.
  unfold scan_line, line_ok, line_delta, line_sents.
  fold (line_kept raw). destruct (line_kept raw); simpl.
  - rewrite bind_run. unfold nlp_sents. rewrite bind_run, emit_run.
    unfold lift_option. destruct (annotate w (Str.strip raw)) as [sents|].
    + rewrite (for_total (sent_delta d))
        by (intros; apply collect_sent_run).
      by rewrite extend_app.
    + done.
  - by rewrite extend_nil.
Qed.

Lemma scan_file_run d input_dir filename s :
  scan_file w d input_dir filename s =
    (outcome_of (file_ok w input_dir filename),
     extend s (file_delta w d input_dir filename)).
Proof.
  unfold scan_file, file_ok, file_delta, file_lines.
  rewrite bind_run. unfold open_readlines. rewrite bind_run, emit_run.
  unfold lift_option.
  destruct (readlines w (input_dir +:+ filename)) as [lines|].
  - rewrite (for_run (line_ok w) (line_delta w d))
      by (intros; apply scan_line_run).
    by rewrite extend_app.
  - done.
Qed.

Lemma scan_run d input_dir s :
  scan w d input_dir s =
    (outcome_of (scan_ok w input_dir), extend s (scan_delta w d input_dir)).
Proof.
  unfold scan, scan_ok, scan_delta, listed.
  rewrite bind_run. unfold os_listdir. rewrite bind_run, emit_run.
  unfold lift_option.
  destruct (listdir w input_dir) as [filenames|].
  - rewrite (for_run (file_ok w input_dir) (file_delta w d input_dir))
      by (intros; apply scan_file_run).
    by rewrite extend_app.
  - done.
Qed.

Lemma main_run ADJ ADV input_dir s :
  let s' := extend s (scan_delta w (build_dicts ADV ADJ) input_dir) in
  main w ADJ ADV input_dir s =
    (if scan_ok w input_dir then Returned (dumped s') else Raised, s').
Proof.
  intros s'. unfold main. rewrite bind_run, scan_run. fold s'.
  by destruct (scan_ok w input_dir).
Qed.

End Runs.

(** *** What a run collects and logs *)

Lemma part_app b x y : part b (delta_app x y) = part b x ++ part b y.
Proof. by destruct b. Qed.

Lemma part_concat {A} b (F : A → delta) l :
  part b (delta_concat (F <$> l)) = l ≫= (λ x, part b (F x)).
Proof. destruct b; [apply delta_concat_adj | apply delta_concat_adv]. Qed.

Lemma elem_of_until_raise {A} (ok : A → bool) l x :
  x ∈ until_raise ok l → x ∈ l.
Proof. intros H. eapply elem_of_prefix; [done | apply until_raise_prefix]. Qed.

Lemma bind_ext_in {A B} (f g : A → list B) l :
  (∀ x, x ∈ l → f x = g x) → l ≫= f = l ≫= g.
Proof. intros H. apply Forall_bind_ext, Forall_forall, H. Qed.

Section Collected.

Context (w : world) (d : dicts) (input_dir : string).

Lemma line_delta_part b raw :
  part b (line_delta w d raw) =
    line_sents w raw ≫= λ sent, part b (sent_delta d sent).
Proof.
  unfold line_delta, line_sents. destruct (line_kept raw).
  - rewrite part_app, part_concat. by destruct b.
  - by destruct b.
Qed.

Lemma line_delta_log raw : d_log (line_delta w d raw) = line_events raw.
Proof.
  unfold line_delta, line_events. destruct (line_kept raw); [| done].
  simpl. f_equal. rewrite delta_concat_log.
  induction (line_sents w raw) as [|sent l IH]; [done |].
  by rewrite bind_cons, IH, sent_delta_log.
Qed.

Lemma file_delta_part b filename :
  part b (file_delta w d input_dir filename) =
    until_raise (line_ok w) (file_lines w input_dir filename) ≫= λ raw,
    line_sents w raw ≫= λ sent, part b (sent_delta d sent).
Proof.
  unfold file_delta. rewrite part_app, part_concat.
  replace (part b (Delta [] [] [Opened (input_dir +:+ filename)])) with (@nil Example)
    by (by destruct b).
  simpl. apply list_bind_ext; [| done]. intros raw. apply line_delta_part.
Qed.

Lemma file_delta_log filename :
  d_log (file_delta w d input_dir filename) =
    Opened (input_dir +:+ filename)
      :: (until_raise (line_ok w) (file_lines w input_dir filename) ≫= line_events).
Proof.
  unfold file_delta. simpl. f_equal. rewrite delta_concat_log.
  apply list_bind_ext; [| done]. intros raw. apply line_delta_log.
Qed.

Lemma scan_delta_part b :
  part b (scan_delta w d input_dir) =
    until_raise (file_ok w input_dir) (listed w input_dir) ≫= λ filename,
    part b (file_delta w d input_dir filename).
Proof.
  unfold scan_delta. rewrite part_app, part_concat.
  replace (part b (Delta [] [] [Listed input_dir])) with (@nil Example)
    by (by destruct b).
  done.
Qed.

Lemma scan_delta_log :
  d_log (scan_delta w d input_dir) =
    Listed input_dir
      :: (until_raise (file_ok w input_dir) (listed w input_dir) ≫= λ filename,
          d_log (file_delta w d input_dir filename)).
Proof. unfold scan_delta. simpl. f_equal. apply delta_concat_log. Qed.

Lemma file_ok_lines filename :
  file_ok w input_dir filename = true →
  until_raise (line_ok w) (file_lines w input_dir filename)
  = file_lines w input_dir filename.
Proof.
  unfold file_ok. intros [_ H]%andb_true_iff. by apply until_raise_all.
Qed.

(** A run that returns has made every round of every loop. *)
Lemma scan_ok_part b :
  scan_ok w input_dir = true →
  part b (scan_delta w d input_dir) = discovered w d input_dir b.
Proof.
  unfold scan_ok. intros [_ Hall]%andb_true_iff.
  rewrite scan_delta_part, until_raise_all by done.
  unfold discovered. apply bind_ext_in. intros filename Hin.
  rewrite file_delta_part, file_ok_lines; [done |].
  rewrite forallb_forall in Hall. apply Hall. by apply list_elem_of_In.
Qed.

Lemma scan_ok_log :
  scan_ok w input_dir = true →
  d_log (scan_delta w d input_dir) = complete_log w input_dir.
Proof.
  unfold scan_ok. intros [_ Hall]%andb_true_iff.
  rewrite scan_delta_log, until_raise_all by done.
  unfold complete_log. f_equal. apply bind_ext_in. intros filename Hin.
  rewrite file_delta_log, file_ok_lines; [done |].
  rewrite forallb_forall in Hall. apply Hall. by apply list_elem_of_In.
Qed.

(** Where an example of a run, complete or not, comes from. *)
Lemma scan_delta_elem b ex :
  ex ∈ part b (scan_delta w d input_dir) →
  ∃ filename raw sents sent,
    filename ∈ listed w input_dir ∧
    readlines w (input_dir +:+ filename) ≠ None ∧
    raw ∈ file_lines w input_dir filename ∧
    line_kept raw = true ∧
    annotate w (Str.strip raw) = Some sents ∧
    sent ∈ sents ∧
    ex ∈ part b (sent_delta d sent).
Proof.
  rewrite scan_delta_part.
  intros (filename & Hex & Hfile%elem_of_until_raise)%list_elem_of_bind.
  rewrite file_delta_part in Hex.
  apply list_elem_of_bind in Hex as (raw & Hex & Hraw%elem_of_until_raise).
  apply list_elem_of_bind in Hex as (sent & Hex & Hsent).
  unfold line_sents in Hsent. destruct (line_kept raw) eqn:Hkept;
    [| by apply elem_of_nil in Hsent].
  destruct (annotate w (Str.strip raw)) as [sents|] eqn:Hann;
    [| by apply elem_of_nil in Hsent].
  exists filename, raw, sents, sent. split_and!; try done.
  unfold file_lines in Hraw. intros Hnone. rewrite Hnone in Hraw.
  by apply elem_of_nil in Hraw.
Qed.

End Collected.

Lemma sent_part_elem d sent (b : bool) ex :
  ex ∈ part b (sent_delta d sent) ↔
  ∃ i token, sent !! i = Some token ∧
             (if b then is_adj d token else is_adv d token) = true ∧
             ex = example_at sent i (part_label b).
Proof. destruct b; [apply sent_adj_elem | apply sent_adv_elem]. Qed.

(** ** The examples of a run *)

Lemma example_at_well_formed d (sent : list Token) i token (b : bool) :
  sent !! i = Some token →
  (if b then is_adj d token else is_adv d token) = true →
  well_formed d (example_at sent i (part_label b)) ∧
  sentence (example_at sent i (part_label b)) !! i = Some (text token).
Proof.
  intros Hi Hb.
  assert (Htext : (text <$> sent) !! i = Some (text token))
    by (by rewrite list_lookup_fmap, Hi).
  split; [| done]. unfold well_formed. simpl. split_and!.
  - destruct b; [by left | by right].
  - rewrite length_fmap. by eapply lookup_lt_Some.
  - exists (text token). split; [done |]. destruct b; simpl.
    + apply is_adj_spec in Hb as (_ & _ & v & Hv & _). split; [by eauto | done].
    + apply is_adv_spec in Hb as (_ & _ & v & Hv & _). split; [done | by eauto].
Qed.

(** C10: every example a run appends, whether the run returns or raises,
    and every example of the dumped list, is well formed: its label is
    "ADJ" or "ADV" (the one of the list it sits in), its index is within
    its sentence, the sentence is the list of token texts of an annotated
    sentence, the entry at the index is the text of the token that passed
    the test, and that text is a key of the adjective -> adverb dictionary
    for "ADJ" and of the adverb -> adjective dictionary for "ADV". *)
Theorem example_well_formed (w : world) (ADJ : list string) (ADV : gset string)
    (input_dir : string) :
  let d := build_dicts ADV ADJ in
  let r := main w ADJ ADV input_dir initial in
  let emitted (b : bool) (ex : Example) :=
    label ex = part_label b ∧ well_formed d ex ∧
    ∃ sent token, sentence ex = text <$> sent ∧
                  sent !! ind ex = Some token ∧
                  sentence ex !! ind ex = Some (text token) ∧
                  tag_ token = (if b then "JJ" else "RB") in
  (∀ ex, ex ∈ adj r.2 → emitted true ex) ∧
  (∀ ex, ex ∈ adv r.2 → emitted false ex) ∧
  (∀ out ex, r.1 = Returned out → ex ∈ out → emitted true ex ∨ emitted false ex).
Proof.
  intros d r emitted.
  assert (Hpart : ∀ b ex, ex ∈ part b (scan_delta w d input_dir) → emitted b ex).
  { intros b ex (_ & _ & _ & sent & _ & _ & _ & _ & _ & _ & Hex)%scan_delta_elem.
    apply sent_part_elem in Hex as (i & token & Hi & Hb & ->).
    destruct (example_at_well_formed d sent i token b Hi Hb) as [Hwf Htext].
    split_and!; [done | done |].
    exists sent, token. split_and!; [done | done | done |].
    destruct b.
    - by apply is_adj_spec in Hb as (? & _).
    - by apply is_adv_spec in Hb as (? & _). }
  assert (Hr : r.2 = extend initial (scan_delta w d input_dir)).
  { unfold r. rewrite main_run. done. }
  assert (Hadj : ∀ ex, ex ∈ adj r.2 → emitted true ex).
  { intros ex. rewrite Hr. simpl. apply (Hpart true). }
  assert (Hadv : ∀ ex, ex ∈ adv r.2 → emitted false ex).
  { intros ex. rewrite Hr. simpl. apply (Hpart false). }
  split_and!; [done | done |].
  intros out ex Hout Hex.
  assert (out = dumped r.2) as ->.
  { unfold r in Hout |- *. rewrite main_run in Hout |- *. simpl in Hout |- *.
    destruct (scan_ok w input_dir); [by injection Hout | done]. }
  unfold dumped, slice_to in Hex. simpl in Hex.
  apply elem_of_app in Hex as [Hex | Hex].
  - left. apply Hadj. eapply subseteq_take, Hex.
  - right. apply Hadv. eapply subseteq_take, Hex.
Qed.

Lemma example_well_formed_witness :
  well_formed (build_dicts sample_ADV sample_ADJ)
              (example_at sample_sentence 2 "ADJ") ∧
  label (example_at sample_sentence 2 "ADJ") = "ADJ".
Proof.
  destruct (example_well_formed sample_world sample_ADJ sample_ADV "blogs/")
    as (Hadj & _).
  destruct (Hadj (example_at sample_sentence 2 "ADJ")) as (Hlabel & Hwf & _).
  - replace (adj (main sample_world sample_ADJ sample_ADV "blogs/" initial).2)
      with [example_at sample_sentence 2 "ADJ"] by (vm_compute; reflexivity).
    apply list_elem_of_singleton. reflexivity.
  - split; [exact Hwf | exact Hlabel].
Defined.

(** ** The dumped list *)

Lemma slice_to_cap {A} (l : list A) (n : Z) :
  (0 ≤ n)%Z →
  slice_to n l = take (Z.to_nat (Z.min (Z.of_nat (length l)) n)) l ∧
  Z.of_nat (length (slice_to n l)) = Z.min (Z.of_nat (length l)) n.
Proof.
  intros Hn. unfold slice_to.
  rewrite (proj2 (Z.leb_le 0 n) Hn).
  destruct (decide (Z.of_nat (length l) ≤ n)%Z) as [Hle | Hgt].
  - rewrite !take_ge by lia. split; [done | lia].
  - rewrite Z.min_r by lia. split; [done |]. rewrite length_take. lia.
Qed.

(** C3: when the script returns, the two lists hold the matches in
    discovery order (file, line, sentence, token), all labelled ADJ in the
    first and ADV in the second, and the dumped list is the first
    min(n_adj, 10000) adjective examples followed by the first
    min(n_adv, 10000) adverb examples; with 15000 adjective and 3000
    adverb matches it is the first 10000 adjective examples followed by
    all 3000 adverb examples, 13000 in all. *)
Theorem output_cap_and_order (w : world) (ADJ : list string) (ADV : gset string)
    (input_dir : string) (out : list Example) (s' : state) :
  main w ADJ ADV input_dir initial = (Returned out, s') →
  let d := build_dicts ADV ADJ in
  let n_adj := Z.of_nat (length (adj s')) in
  let n_adv := Z.of_nat (length (adv s')) in
  adj s' = discovered w d input_dir true ∧
  adv s' = discovered w d input_dir false ∧
  Forall (λ ex, label ex = "ADJ") (adj s') ∧
  Forall (λ ex, label ex = "ADV") (adv s') ∧
  out = take (Z.to_nat (Z.min n_adj 10000)) (adj s')
        ++ take (Z.to_nat (Z.min n_adv 10000)) (adv s') ∧
  Z.of_nat (length out) = (Z.min n_adj 10000 + Z.min n_adv 10000)%Z ∧
  (n_adj = 15000%Z → n_adv = 3000%Z →
   out = take (Z.to_nat 10000) (adj s') ++ adv s' ∧
   Z.of_nat (length (take (Z.to_nat 10000) (adj s'))) = 10000%Z ∧
   Z.of_nat (length out) = 13000%Z).
Proof.
  intros Hmain d n_adj n_adv. rewrite main_run in Hmain. fold d in Hmain.
  destruct (scan_ok w input_dir) eqn:Hok; [| done].
  injection Hmain as Hout Hs'.
  assert (Hadj : adj s' = discovered w d input_dir true).
  { rewrite <- Hs'. simpl. by apply (scan_ok_part w d input_dir true). }
  assert (Hadv : adv s' = discovered w d input_dir false).
  { rewrite <- Hs'. simpl. by apply (scan_ok_part w d input_dir false). }
  assert (Hlabel : ∀ b ex, ex ∈ part b (scan_delta w d input_dir) →
                           label ex = part_label b).
  { intros b ex (_ & _ & _ & sent & _ & _ & _ & _ & _ & _ & Hex)%scan_delta_elem.
    by apply sent_part_elem in Hex as (i & token & _ & _ & ->). }
  destruct (slice_to_cap (adj s') 10000) as [HcapA HlenA]; [lia |].
  destruct (slice_to_cap (adv s') 10000) as [HcapB HlenB]; [lia |].
  assert (Hdump : out = slice_to 10000 (adj s') ++ slice_to 10000 (adv s')).
  { by rewrite <- Hout, <- Hs'. }
  assert (Hlen : Z.of_nat (length out) = (Z.min n_adj 10000 + Z.min n_adv 10000)%Z).
  { rewrite Hdump, length_app. unfold n_adj, n_adv. lia. }
  split_and!; try done.
  - apply Forall_forall. intros ex. rewrite <- Hs'. simpl. apply (Hlabel true).
  - apply Forall_forall. intros ex. rewrite <- Hs'. simpl. apply (Hlabel false).
  - by rewrite Hdump, HcapA, HcapB.
  - intros HnA HnB. split_and!.
    + rewrite Hdump, HcapA, HcapB. fold n_adj n_adv. rewrite HnA, HnB.
      f_equal. apply take_ge. unfold n_adv in HnB. lia.
    + rewrite length_take. unfold n_adj in HnA. lia.
    + lia.
Qed.

Lemma output_cap_and_order_witness :
  ∃ out s',
    main sample_world sample_ADJ sample_ADV "blogs/" initial = (Returned out, s') ∧
    out = [example_at (sample_token "he" "PRP" "VBD"
                       :: sample_token "ran" "VBD" "VBD"
                       :: [sample_token "quick" "JJ" "VBD"]) 2 "ADJ";
           example_at (sample_token "she" "PRP" "VBD"
                       :: sample_token "sang" "VBD" "VBD"
                       :: [sample_token "quickly" "RB" "VBD"]) 2 "ADV"] ∧
    Z.of_nat (length out) = 2%Z.
Proof.
  eexists _, _.
  assert (Hmain : main sample_world sample_ADJ sample_ADV "blogs/" initial
                  = (Returned _, _)) by (vm_compute; reflexivity).
  split; [exact Hmain |].
  destruct (output_cap_and_order _ _ _ _ _ _ Hmain) as (_ & _ & _ & _ & _ & Hlen & _).
  split; [reflexivity | exact Hlen].
Defined.

(** ** Filtering of lines and the file cap *)

Lemma length_pos_nonempty (s : string) :
  (0 <? String.length s)%nat = true ↔ s ≠ "".
Proof.
  destruct s; simpl.
  - split; [done | by intros []].
  - by split.
Qed.

Lemma line_kept_spec raw :
  line_kept raw = true ↔
  Str.strip raw ≠ "" ∧ ¬ ∃ rest, Str.strip raw = "<" +:+ rest.
Proof.
  unfold line_kept.
  rewrite andb_true_iff, negb_true_iff, length_pos_nonempty.
  rewrite <- startswith_spec.
  destruct (Str.startswith (Str.strip raw) "<"); split.
  - by intros [_ ?].
  - by intros [_ []].
  - by intros [? _].
  - by intros [? _].
Qed.

(** Stripping keeps a leading "<". *)
Lemma strip_markup rest : ∃ rest', Str.strip ("<" +:+ rest) = "<" +:+ rest'.
Proof.
  exists (Str.rstrip rest). unfold Str.strip. simpl.
  by rewrite andb_false_r.
Qed.

Lemma line_not_kept raw :
  Str.strip raw = "" ∨ (∃ rest, Str.strip raw = "<" +:+ rest)
  ∨ (∃ rest, raw = "<" +:+ rest) →
  line_kept raw = false.
Proof.
  intros H. apply not_true_is_false. rewrite line_kept_spec. intros [Hne Hlt].
  destruct H as [H | [H | [rest ->]]]; [done | done |].
  apply Hlt, strip_markup.
Qed.

(** C8: the loop of line 77 ranges over the first 55 listed names in the
    listed order; the log of a run that returns is the listing followed,
    for each of these names in order, by the opening of the file and the
    submission of its kept lines in order; in every run an opened path
    belongs to one of the first 55 names and a submitted line is the
    stripped form of a line of such a file that is non-empty and does not
    begin with "<".  A line that is empty after stripping, or that begins
    with "<" as read or after stripping, makes no call and adds no
    example; every other line is submitted once, stripped. *)
Theorem scanner_filter_and_cap (w : world) (d : dicts) (input_dir : string)
    (s : state) :
  let r := scan w d input_dir s in
  let first55 := take 55 (default [] (listdir w input_dir)) in
  listed w input_dir = first55 ∧
  (∃ new, log r.2 = log s ++ new ∧
     (r.1 = Returned () → new = complete_log w input_dir) ∧
     (∀ path, Opened path ∈ new →
        ∃ filename, filename ∈ first55 ∧ path = input_dir +:+ filename) ∧
     (∀ line, Annotated line ∈ new →
        ∃ filename raw,
          filename ∈ first55 ∧ raw ∈ file_lines w input_dir filename ∧
          line = Str.strip raw ∧ line ≠ "" ∧ ¬ ∃ rest, line = "<" +:+ rest)) ∧
  (∀ raw s0,
     Str.strip raw = "" ∨ (∃ rest, Str.strip raw = "<" +:+ rest)
     ∨ (∃ rest, raw = "<" +:+ rest) →
     scan_line w d raw s0 = (Returned (), s0)) ∧
  (∀ raw s0,
     Str.strip raw ≠ "" → (¬ ∃ rest, Str.strip raw = "<" +:+ rest) →
     ∃ new_adj new_adv,
       (scan_line w d raw s0).2 =
         State (adj s0 ++ new_adj) (adv s0 ++ new_adv)
               (log s0 ++ [Annotated (Str.strip raw)])).
Proof.
  intros r first55. split_and!.
  - done.
  - exists (d_log (scan_delta w d input_dir)).
    assert (Hr : r = (outcome_of (scan_ok w input_dir),
                      extend s (scan_delta w d input_dir)))
      by apply scan_run.
    split_and!.
    + by rewrite Hr.
    + rewrite Hr. destruct (scan_ok w input_dir) eqn:Hok; [| done].
      intros _. by apply scan_ok_log.
    + intros path. rewrite scan_delta_log.
      intros [[=] | Hin]%elem_of_cons.
      apply list_elem_of_bind in Hin as (filename & Hin & Hfile%elem_of_until_raise).
      rewrite file_delta_log in Hin.
      apply elem_of_cons in Hin as [[= ->] | Hin]; [by exists filename |].
      apply list_elem_of_bind in Hin as (raw & Hin & _).
      unfold line_events in Hin. destruct (line_kept raw).
      * by apply list_elem_of_singleton in Hin.
      * by apply elem_of_nil in Hin.
    + intros line. rewrite scan_delta_log.
      intros [[=] | Hin]%elem_of_cons.
      apply list_elem_of_bind in Hin as (filename & Hin & Hfile%elem_of_until_raise).
      rewrite file_delta_log in Hin.
      apply elem_of_cons in Hin as [[=] | Hin].
      apply list_elem_of_bind in Hin as (raw & Hin & Hraw%elem_of_until_raise).
      unfold line_events in Hin. destruct (line_kept raw) eqn:Hkept.
      * apply list_elem_of_singleton in Hin as [= ->].
        apply line_kept_spec in Hkept as [Hne Hlt].
        by exists filename, raw.
      * by apply elem_of_nil in Hin.
  - intros raw s0 Hraw. rewrite scan_line_run.
    unfold line_ok, line_delta. rewrite (line_not_kept raw Hraw).
    by rewrite extend_nil.
  - intros raw s0 Hne Hlt. rewrite scan_line_run.
    exists (d_adj (line_delta w d raw)), (d_adv (line_delta w d raw)).
    unfold extend, snd. rewrite line_delta_log. unfold line_events.
    by rewrite (proj2 (line_kept_spec raw)).
Qed.

Lemma scanner_filter_and_cap_witness :
  log (scan sample_world (build_dicts sample_ADV sample_ADJ) "blogs/" initial).2
  = [Listed "blogs/";
     Opened "blogs/1.xml"; Annotated "he ran quick";
     Opened "blogs/2.xml"; Annotated "she sang quickly"] ∧
  ∀ s0, scan_line sample_world (build_dicts sample_ADV sample_ADJ) "  <post>" s0
        = (Returned (), s0).
Proof.
  destruct (scanner_filter_and_cap sample_world
              (build_dicts sample_ADV sample_ADJ) "blogs/" initial)
    as (_ & (new & Hlog & Hcomplete & _) & Hskip & _).
  split.
  - rewrite Hlog, Hcomplete; [| vm_compute; reflexivity].
    vm_compute. reflexivity.
  - intros s0. apply Hskip. right. left. exists "post>". vm_compute. reflexivity.
Defined.

(** ** The path of an opened file *)

(** C9: the first thing the scanner does for a listed name is to open the
    concatenation of the directory argument and the name, with nothing in
    between, and it opens nothing else for that name; for a non-empty
    directory argument this is the path of the directory's entry of that
    name exactly when the argument ends with the separator. *)
Theorem opened_path_is_concatenation (w : world) (d : dicts)
    (input_dir filename : string) (s : state) :
  input_dir ≠ "" →
  (∃ rest, log (scan_file w d input_dir filename s).2
           = log s ++ Opened (input_dir +:+ filename) :: rest ∧
           ∀ path, Opened path ∉ rest) ∧
  String.length (input_dir +:+ filename)
  = String.length input_dir + String.length filename ∧
  (input_dir +:+ filename = entry_path input_dir filename
   ↔ ends_in "/" input_dir).
Proof.
  intros Hdir. split_and!.
  - rewrite scan_file_run. unfold extend, snd. rewrite file_delta_log.
    eexists. split; [done |].
    intros path (raw & Hin & _)%list_elem_of_bind.
    unfold line_events in Hin. destruct (line_kept raw).
    + by apply list_elem_of_singleton in Hin.
    + by apply elem_of_nil in Hin.
  - apply app_length_str.
  - unfold entry_path. destruct (Str.endswith input_dir "/") eqn:E.
    + apply endswith_spec in E. by split.
    + apply endswith_false in E. split; [| done].
      intros Heq. apply (inj (String.app input_dir)) in Heq.
      apply (f_equal String.length) in Heq. simpl in Heq. lia.
Qed.

Lemma opened_path_is_concatenation_witness :
  (∃ rest, log (scan_file sample_world (build_dicts sample_ADV sample_ADJ)
                  "blogs" "1.xml" initial).2
           = Opened "blogs1.xml" :: rest) ∧
  "blogs" +:+ "1.xml" ≠ entry_path "blogs" "1.xml" ∧
  "blogs/" +:+ "1.xml" = entry_path "blogs/" "1.xml".
Proof.
  destruct (opened_path_is_concatenation sample_world
              (build_dicts sample_ADV sample_ADJ) "blogs" "1.xml" initial)
    as ((rest & Hlog & _) & _ & Hiff); [discriminate |].
  destruct (opened_path_is_concatenation sample_world
              (build_dicts sample_ADV sample_ADJ) "blogs/" "1.xml" initial)
    as (_ & _ & Hiff'); [discriminate |].
  split_and!.
  - exists rest. exact Hlog.
  - intros Heq. apply Hiff in Heq. apply endswith_spec in Heq.
    vm_compute in Heq. discriminate Heq.
  - apply Hiff'. exists "blogs". reflexivity.
Defined.

(** * Further properties of the script *)

(** ** The mapper (lines 29-62) *)

Lemma drop_last_split a : ∃ r, a = Str.drop_last a +:+ r ∧ String.length r ≤ 1.
Proof.
  induction a as [|c a IH].
  - exists "". split; [done | simpl; lia].
  - destruct a as [|c' a].
    + exists (String c ""). split; [done | simpl; lia].
    + destruct IH as (r & Hr & Hlen). exists r. split; [| done].
      transitivity (String c (Str.drop_last (String c' a) +:+ r));
        [by rewrite <- Hr | reflexivity].
Qed.

Lemma drop_last_length a :
  String.length (Str.drop_last a) = String.length a - 1.
Proof.
  induction a as [|c a IH]; [done |].
  destruct a as [|c' a]; [done |].
  change (Str.drop_last (String c (String c' a)))
    with (String c (Str.drop_last (String c' a))).
  simpl in *. rewrite IH. lia.
Qed.

(** Every candidate of the suffix rules ends in "ly". *)
Lemma suffix_rules_ly a : ends_in "ly" (suffix_rules a).
Proof.
  rewrite suffix_rules_guard.
  destruct (guard RuleLe a) eqn:G1.
  { apply guard_spec in G1 as [[stem ->] _]. exists stem.
    replace (stem +:+ "le") with ((stem +:+ "l") +:+ "e")
      by apply app_assoc_str.
    by rewrite drop_last_snoc, app_assoc_str. }
  destruct (guard RuleY a).
  { exists (Str.drop_last a +:+ "i"). by rewrite app_assoc_str. }
  destruct (guard RuleIc a).
  { exists (a +:+ "al"). by rewrite app_assoc_str. }
  destruct (guard RuleLl a) eqn:G4.
  { apply guard_spec in G4 as [stem ->]. exists (stem +:+ "l").
    by rewrite !app_assoc_str. }
  by exists a.
Qed.

(** The five ways in which the mapper returns a word. *)
Lemma transform_some ADV a adv :
  transform_adj_to_adv ADV a = Some adv →
  Str.endswith a "ly" = false ∧
  ((a ∈ ADV ∧ adv = a)
   ∨ ((a ∉ ADV) ∧ a = "good" ∧ adv = "well")
   ∨ ((a ∉ ADV) ∧ a = "whole" ∧ adv = "wholly")
   ∨ ((a ∉ ADV) ∧ a = "true" ∧ adv = "truly")
   ∨ ((a ∉ ADV) ∧ (a ∉ ["good"; "whole"; "true"]) ∧
      adv = suffix_rules a ∧ adv ∈ ADV)).
Proof.
  unfold transform_adj_to_adv.
  destruct (Str.endswith a "ly"); [done |]. split; [done |].
  revert H. case_bool_decide as Hadv; [intros [= <-]; by left |].
  destruct (String.eqb a "good") eqn:E.
  { apply String.eqb_eq in E as ->. intros [= <-]. right. by left. }
  apply eqb_false_iff in E.
  case_bool_decide as Hexc.
  { apply elem_of_cons in Hexc as [-> | Hexc].
    - intros [= <-]. right. right. by left.
    - apply list_elem_of_singleton in Hexc as ->.
      intros [= <-]. right. right. right. by left. }
  case_bool_decide as Hgate; [| done].
  intros [= <-]. do 4 right. split_and!; try done.
  intros [-> | Hin]%elem_of_cons; [done | by apply Hexc].
Qed.

Lemma mapper_shape_aux ADV a adv :
  transform_adj_to_adv ADV a = Some adv →
  ¬ ends_in "ly" a ∧ (adv = a ∨ adv = "well" ∨ ends_in "ly" adv).
Proof.
  intros Ht.
  destruct (transform_some ADV a adv Ht) as [Hly Hcases].
  split; [by apply endswith_false |].
  destruct Hcases as [[_ ->] | [(_ & _ & ->) | [(_ & _ & ->)
    | [(_ & _ & ->) | (_ & _ & -> & _)]]]].
  - by left.
  - right. by left.
  - right. right. by exists "whol".
  - right. right. by exists "tru".
  - right. right. apply suffix_rules_ly.
Qed.

(** X1: what the mapper returns has one of three shapes.  The adjective
    never ends in "ly"; the adverb is the adjective itself (same form), or
    "well", or a word that ends in "ly".  So a returned adverb other than
    the adjective and other than "well" is never mapped further. *)
Theorem mapper_result_shape (ADV : gset string) (a adv : string) :
  transform_adj_to_adv ADV a = Some adv →
  ¬ ends_in "ly" a ∧
  (adv = a ∨ adv = "well" ∨ ends_in "ly" adv) ∧
  (adv ≠ a → adv ≠ "well" → transform_adj_to_adv ADV adv = None).
Proof.
  intros Ht. destruct (mapper_shape_aux ADV a adv Ht) as [Hly Hshape].
  split_and!; [done | done |].
  intros Hne Hwell. destruct Hshape as [? | [? | Hend]]; [done | done |].
  by apply ly_ends_no_mapping.
Qed.

Lemma mapper_result_shape_witness :
  ends_in "ly" "angrily" ∧ transform_adj_to_adv {["angrily"]} "angrily" = None.
Proof.
  destruct (mapper_result_shape {["angrily"]} "angry" "angrily")
    as (_ & Hshape & Hnone); [vm_compute; reflexivity |].
  split.
  - destruct Hshape as [[=] | [[=] | Hend]]. exact Hend.
  - apply Hnone; discriminate.
Defined.

(** X2: the adverb keeps the stem of the adjective.  Apart from the pair
    good -> well, a returned adverb starts with the adjective without its
    last letter; and in every case its length is at least the adjective's
    and at most four letters more. *)
Theorem mapper_keeps_stem (ADV : gset string) (a adv : string) :
  transform_adj_to_adv ADV a = Some adv →
  ((a = "good" ∧ adv = "well") ∨ ∃ r, adv = Str.drop_last a +:+ r) ∧
  String.length a ≤ String.length adv ≤ String.length a + 4.
Proof.
  intros Ht.
  destruct (transform_some ADV a adv Ht) as [Hly Hcases].
  destruct (drop_last_split a) as (r & Hr & Hlen).
  pose proof (drop_last_length a) as Hdl.
  assert (Ha : String.length a = String.length (Str.drop_last a) + String.length r)
    by (by rewrite <- app_length_str, <- Hr).
  destruct Hcases as [[_ ->] | [(_ & -> & ->) | [(_ & -> & ->)
      | [(_ & -> & ->) | (_ & _ & -> & _)]]]].
  - split; [right; by exists r | lia].
  - split; [by left | simpl; lia].
  - split; [right; by exists "ly" | simpl; lia].
  - split; [right; by exists "ly" | simpl; lia].
  - rewrite suffix_rules_guard.
    destruct (guard RuleLe a) eqn:G1.
    { apply guard_spec in G1 as [[stem Hstem] _].
      assert (1 < String.length a)
        by (rewrite Hstem, app_length_str; simpl; lia).
      split; [right; by exists "y" |].
      rewrite app_length_str. simpl. lia. }
    destruct (guard RuleY a) eqn:G2.
    { apply guard_spec in G2 as [[stem Hstem] _].
      assert (0 < String.length a)
        by (rewrite Hstem, app_length_str; simpl; lia).
      split; [right; by exists "ily" |].
      rewrite app_length_str. simpl. lia. }
    destruct (guard RuleIc a).
    { split; [right; exists (r +:+ "ally");
              by rewrite <- app_assoc_str, <- Hr |].
      rewrite app_length_str. simpl. lia. }
    destruct (guard RuleLl a).
    { split; [right; exists (r +:+ "y");
              by rewrite <- app_assoc_str, <- Hr |].
      rewrite app_length_str. simpl. lia. }
    split; [right; exists (r +:+ "ly");
            by rewrite <- app_assoc_str, <- Hr |].
    rewrite app_length_str. simpl. lia.
Qed.

Lemma mapper_keeps_stem_witness :
  ∃ r, "idiotically" = Str.drop_last "idiotic" +:+ r.
Proof.
  destruct (mapper_keeps_stem {["idiotically"]} "idiotic" "idiotically")
    as [[[[=] _] | Hstem] _]; [vm_compute; reflexivity |].
  exact Hstem.
Defined.

(** X3: when the mapper has no mapping.  It returns [None] exactly for an
    adjective that ends in "ly", or that is outside the adverb list, is
    none of "good", "whole", "true", and whose candidate by the suffix
    rules is outside the adverb list. *)
Theorem mapper_none_iff (ADV : gset string) (a : string) :
  transform_adj_to_adv ADV a = None ↔
  ends_in "ly" a ∨
  ((a ∉ ADV) ∧ (a ∉ ["good"; "whole"; "true"]) ∧ (suffix_rules a ∉ ADV)).
Proof.
  split.
  - intros Hnone. destruct (Str.endswith a "ly") eqn:Hly.
    { left. by apply endswith_spec. }
    right. destruct (decide (a ∈ ADV)) as [Hadv | Hadv].
    { by rewrite transform_adverb in Hnone. }
    destruct (decide (a ∈ ["good"; "whole"; "true"])) as [Hexc | Hexc].
    { rewrite transform_not_adverb in Hnone by done.
      repeat (apply elem_of_cons in Hexc as [-> | Hexc]; [done |]).
      by apply elem_of_nil in Hexc. }
    split_and!; [done | done |].
    rewrite transform_rules in Hnone by done. unfold gate in Hnone.
    by case_bool_decide.
  - intros [Hly | (Hadv & Hexc & Hcand)].
    + by apply ly_ends_no_mapping.
    + destruct (Str.endswith a "ly") eqn:Hly.
      { apply ly_ends_no_mapping. by apply endswith_spec. }
      rewrite transform_rules by done. unfold gate.
      by rewrite bool_decide_eq_false_2.
Qed.

(** ** The dictionaries (lines 64-70) *)

(** The keys of the reverse dictionary are the adverbs recorded for some
    adjective of the list. *)
Lemma adv_to_adj_key ADV ADJ adv :
  is_Some (adv_to_adj (build_dicts ADV ADJ) !! adv) ↔
  ∃ a, a ∈ ADJ ∧ recorded ADV a adv.
Proof.
  split.
  - intros [a Ha]. exists a. by apply adv_to_adj_lookup.
  - intros Hex.
    destruct (last_recorded ADV adv ADJ Hex) as (l1 & a & l2 & -> & Ha & Hlater).
    exists a. by apply adv_to_adj_last.
Qed.

Lemma option_eq_iff {A} (x y : option A) :
  (∀ v, x = Some v ↔ y = Some v) → x = y.
Proof.
  intros H. destruct x as [v|].
  - symmetry. by apply H.
  - destruct y as [v|]; [| done]. by apply H.
Qed.

(** What a recorded pair looks like. *)
Lemma recorded_words ADV a adv :
  recorded ADV a adv →
  (a ∉ ADV) ∧ ¬ ends_in "ly" a ∧ (adv = "well" ∨ ends_in "ly" adv) ∧
  (adv ∈ ADV ∨ a ∈ ["good"; "whole"; "true"]).
Proof.
  intros [Ht Hne].
  destruct (mapper_shape_aux ADV a adv Ht) as (Hly & Hshape).
  destruct (transform_some ADV a adv Ht) as [_ Hcases].
  split_and!; [| done | |].
  - intros Hadv. rewrite transform_adverb in Ht; [by injection Ht | | done].
    by apply endswith_false.
  - destruct Hshape as [? | ?]; [done | done].
  - destruct Hcases as [[_ ->] | [(_ & -> & _) | [(_ & -> & _)
      | [(_ & -> & _) | (_ & _ & _ & Hin)]]]]; try done.
    + right. apply elem_of_cons. by left.
    + right. apply elem_of_cons. right. apply elem_of_cons. by left.
    + right. do 2 (apply elem_of_cons; right). by apply list_elem_of_singleton.
    + by left.
Qed.

(** X4: which words the dictionaries hold.  A key of the adjective ->
    adverb dictionary is an adjective of the list that is not in the
    adverb list and does not end in "ly"; its value is "well" or ends in
    "ly", and is in the adverb list unless it comes from the exception
    table.  A word that is a key of both dictionaries can only be
    "well". *)
Theorem dictionary_words (ADV : gset string) (ADJ : list string) :
  let d := build_dicts ADV ADJ in
  (∀ a adv, adj_to_adv d !! a = Some adv →
     a ∈ ADJ ∧ (a ∉ ADV) ∧ ¬ ends_in "ly" a ∧
     (adv = "well" ∨ ends_in "ly" adv) ∧
     (adv ∈ ADV ∨ a ∈ ["good"; "whole"; "true"])) ∧
  (∀ x, is_Some (adj_to_adv d !! x) → is_Some (adv_to_adj d !! x) →
     x = "well").
Proof.
  intros d. split.
  - intros a adv [Hin Ha]%adj_to_adv_lookup.
    destruct (recorded_words ADV a adv Ha) as (? & ? & ? & ?). by split_and!.
  - intros x [adv [_ Hx]%adj_to_adv_lookup] [a [_ Ha]%adv_to_adj_lookup].
    destruct (recorded_words ADV x adv Hx) as (_ & Hly & _).
    destruct (recorded_words ADV a x Ha) as (_ & _ & [-> | Hend] & _); done.
Qed.

Lemma dictionary_words_witness :
("quick" ∉ sample_ADV) ∧ ends_in "ly" "quickly".
Proof.
  destruct (dictionary_words sample_ADV sample_ADJ) as [Hkeys _].
  destruct (Hkeys "quick" "quickly") as (_ & Hadv & _ & [[=] | Hend] & _).
  - vm_compute. reflexivity.
  - split; [exact Hadv | exact Hend].
Defined.

(** X5: the order of the loop over the adjective set.  Two orders of the
    same set of adjectives, with or without repetitions, give the same
    adjective -> adverb dictionary and the same set of keys of the adverb
    -> adjective dictionary; when no two adjectives of the list are
    recorded with the same adverb they give the same two dictionaries. *)
Theorem build_order_independent (ADV : gset string) (l1 l2 : list string) :
  (∀ x, x ∈ l1 ↔ x ∈ l2) →
  adj_to_adv (build_dicts ADV l1) = adj_to_adv (build_dicts ADV l2) ∧
  dom (adv_to_adj (build_dicts ADV l1)) = dom (adv_to_adj (build_dicts ADV l2)) ∧
  ((∀ a b adv, a ∈ l1 → b ∈ l1 →
      recorded ADV a adv → recorded ADV b adv → a = b) →
   build_dicts ADV l1 = build_dicts ADV l2).
Proof.
  intros Hsame.
  assert (Hfwd : adj_to_adv (build_dicts ADV l1) = adj_to_adv (build_dicts ADV l2)).
  { apply map_eq. intros a. apply option_eq_iff. intros adv.
    rewrite !adj_to_adv_lookup. by rewrite Hsame. }
  split_and!; [done | |].
  - apply set_eq. intros adv. rewrite !elem_of_dom, !adv_to_adj_key.
    split; intros (a & Hin & Ha); exists a; (split; [by apply Hsame | done]).
  - intros Hinj.
    assert (Hrev : ∀ l, (∀ x, x ∈ l1 ↔ x ∈ l) → ∀ adv a,
              adv_to_adj (build_dicts ADV l) !! adv = Some a ↔
              a ∈ l1 ∧ recorded ADV a adv).
    { intros l Hl adv a. split.
      - intros [Hin Ha]%adv_to_adj_lookup. split; [by apply Hl | done].
      - intros [Hin Ha].
        destruct (proj2 (adv_to_adj_key ADV l adv)) as [b Hb].
        { exists a. split; [by apply Hl | done]. }
        pose proof Hb as [Hbin Hbrec]%adv_to_adj_lookup.
        apply Hl in Hbin. by rewrite (Hinj a b adv). }
    destruct (build_dicts ADV l1) as [f1 r1] eqn:E1.
    destruct (build_dicts ADV l2) as [f2 r2] eqn:E2.
    simpl in Hfwd. subst f2. f_equal.
    apply map_eq. intros adv. apply option_eq_iff. intros a.
    pose proof (Hrev l1 (λ x, reflexivity _) adv a) as H1.
    pose proof (Hrev l2 Hsame adv a) as H2.
    rewrite E1 in H1. rewrite E2 in H2. simpl in H1, H2.
    by rewrite H1, H2.
Qed.

Lemma build_order_independent_witness :
  adj_to_adv (build_dicts sample_ADV ["historical"; "quick"; "historic"; "quick"])
  = adj_to_adv (build_dicts sample_ADV sample_ADJ).
Proof.
  destruct (build_order_independent sample_ADV
              ["historical"; "quick"; "historic"; "quick"] sample_ADJ)
    as (Hfwd & _).
  - intros x. unfold sample_ADJ. rewrite !elem_of_cons, !elem_of_nil. tauto.
  - exact Hfwd.
Defined.

(** X6: sizes.  The adverb -> adjective dictionary never has more entries
    than the adjective -> adverb dictionary, which never has more entries
    than the loop has rounds. *)
Theorem dictionary_sizes (ADV : gset string) (ADJ : list string) :
  size (adv_to_adj (build_dicts ADV ADJ)) ≤ size (adj_to_adv (build_dicts ADV ADJ))
  ∧ size (adj_to_adv (build_dicts ADV ADJ)) ≤ length ADJ.
Proof.
  induction ADJ as [|x l [IH1 IH2]] using rev_ind.
  - simpl. rewrite !map_size_empty. lia.
  - rewrite build_dicts_snoc, length_app. simpl.
    destruct (build_step_cases ADV (build_dicts ADV l) x)
      as [(advx & Hx & ->) | [_ ->]]; simpl; [| lia].
    rewrite !map_size_insert.
    destruct (adv_to_adj (build_dicts ADV l) !! advx) as [b|] eqn:Hrev;
      destruct (adj_to_adv (build_dicts ADV l) !! x) as [adv'|] eqn:Hfwd;
      unfold id; try lia.
    apply adj_to_adv_lookup in Hfwd as [Hin Hx'].
    assert (Hkey : is_Some (adv_to_adj (build_dicts ADV l) !! advx)).
    { apply adv_to_adj_key. by exists x. }
    rewrite Hrev in Hkey. by destruct Hkey.
Qed.

(** ** The collector (lines 85-98) *)

Lemma token_delta_bound d sent i :
  length (d_adj (token_delta d sent i)) + length (d_adv (token_delta d sent i)) ≤ 1
  ∧ Forall (λ ex, ind ex = i) (d_adj (token_delta d sent i))
  ∧ Forall (λ ex, ind ex = i) (d_adv (token_delta d sent i)).
Proof.
  unfold token_delta.
  destruct (sent !! i) as [token|];
    [destruct (is_adj d token); [| destruct (is_adv d token)] |];
    simpl; split_and!; try lia; by repeat constructor.
Qed.

Lemma seq_delta_bound d sent j n :
  let x := delta_concat (token_delta d sent <$> seq j n) in
  length (d_adj x) + length (d_adv x) ≤ n
  ∧ StronglySorted lt (ind <$> d_adj x)
  ∧ StronglySorted lt (ind <$> d_adv x)
  ∧ Forall (λ ex, j ≤ ind ex) (d_adj x)
  ∧ Forall (λ ex, j ≤ ind ex) (d_adv x).
Proof.
  revert j. induction n as [|n IH]; intros j.
  - simpl. split_and!; try lia; constructor.
  - change (delta_concat (token_delta d sent <$> seq j (S n)))
      with (delta_app (token_delta d sent j)
              (delta_concat (token_delta d sent <$> seq (S j) n))).
    specialize (IH (S j)).
    set (y := delta_concat (token_delta d sent <$> seq (S j) n)) in *.
    destruct IH as (Hlen & HsA & HsB & HgeA & HgeB).
    destruct (token_delta_bound d sent j) as (Hone & HiA & HiB).
    set (t := token_delta d sent j) in *.
    cbn [delta_app d_adj d_adv].
    rewrite !length_app, !fmap_app. split_and!.
    + lia.
    + apply StronglySorted_app_2; [| | done].
      * intros i1 i2 (e1 & -> & He1)%list_elem_of_fmap (e2 & -> & He2)%list_elem_of_fmap.
        rewrite Forall_forall in HiA, HgeA.
        rewrite (HiA e1 He1). specialize (HgeA e2 He2). lia.
      * destruct (d_adj t) as [|e [|e' l]];
          simpl in *; [constructor | by repeat constructor | lia].
    + apply StronglySorted_app_2; [| | done].
      * intros i1 i2 (e1 & -> & He1)%list_elem_of_fmap (e2 & -> & He2)%list_elem_of_fmap.
        rewrite Forall_forall in HiB, HgeB.
        rewrite (HiB e1 He1). specialize (HgeB e2 He2). lia.
      * destruct (d_adv t) as [|e [|e' l]];
          simpl in *; [constructor | by repeat constructor | lia].
    + apply Forall_app. split.
      * eapply Forall_impl; [exact HiA |]. simpl. lia.
      * eapply Forall_impl; [exact HgeA |]. simpl. lia.
    + apply Forall_app. split.
      * eapply Forall_impl; [exact HiB |]. simpl. lia.
      * eapply Forall_impl; [exact HgeB |]. simpl. lia.
Qed.

(** X7: a sentence adds at most one example per token, and adds the
    examples of each label in the order of the tokens: the appended
    indices are strictly increasing. *)
Theorem sentence_examples_bounded (d : dicts) (sent : list Token) (s : state) :
  ∃ new_adj new_adv,
    collect_sent d sent s =
      (Returned (), State (adj s ++ new_adj) (adv s ++ new_adv) (log s)) ∧
    length new_adj + length new_adv ≤ length sent ∧
    StronglySorted lt (ind <$> new_adj) ∧
    StronglySorted lt (ind <$> new_adv).
Proof.
  exists (d_adj (sent_delta d sent)), (d_adv (sent_delta d sent)).
  destruct (seq_delta_bound d sent 0 (length sent)) as (Hlen & HsA & HsB & _).
  split_and!; try done.
  rewrite collect_sent_run. unfold extend.
  by rewrite sent_delta_log, app_nil_r.
Qed.

Lemma delta_concat_nil {A} (F : A → delta) l :
  (∀ x, x ∈ l → F x = delta_nil) → delta_concat (F <$> l) = delta_nil.
Proof.
  induction l as [|x l IH]; intros H; [done |].
  change (delta_concat (F <$> x :: l))
    with (delta_app (F x) (delta_concat (F <$> l))).
  rewrite H by (apply elem_of_cons; by left).
  rewrite IH by (intros; apply H; apply elem_of_cons; by right). done.
Qed.

(** X8: missing keys.  A sentence none of whose token texts is a key of
    either dictionary leaves the two lists and the log as they are,
    whatever the tags of its tokens. *)
Theorem missing_keys_add_nothing (d : dicts) (sent : list Token) (s : state) :
  (∀ token, token ∈ sent →
     adj_to_adv d !! text token = None ∧ adv_to_adj d !! text token = None) →
  collect_sent d sent s = (Returned (), s).
Proof.
  intros Hmiss. rewrite collect_sent_run.
  unfold sent_delta. rewrite delta_concat_nil; [by rewrite extend_nil |].
  intros i _. unfold token_delta.
  destruct (sent !! i) as [token|] eqn:Hi; [| done].
  destruct (Hmiss token) as [HA HB]; [by eapply list_elem_of_lookup_2 |].
  unfold is_adj, is_adv, get_truthy. rewrite HA, HB.
  by rewrite !andb_false_r.
Qed.

Lemma missing_keys_add_nothing_witness :
  collect_sent (build_dicts sample_ADV []) sample_sentence initial
  = (Returned (), initial).
Proof.
  apply missing_keys_add_nothing. intros token _. split; apply lookup_empty.
Defined.

(** ** The scanner and the dump (lines 76-104) *)

(** X9: when the script returns.  It returns a list exactly when the
    directory can be listed, each of the first 55 listed files can be
    opened, and the annotator answers for every line of these files that
    passes the test of line 83; in every other case it raises and nothing
    is dumped.  Files past the 55th and lines that are skipped play no
    part. *)
Theorem main_returns_iff (w : world) (ADJ : list string) (ADV : gset string)
    (input_dir : string) :
  (∃ out, (main w ADJ ADV input_dir initial).1 = Returned out) ↔
  ∃ filenames,
    listdir w input_dir = Some filenames ∧
    ∀ filename, filename ∈ take 55 filenames →
      ∃ lines,
        readlines w (input_dir +:+ filename) = Some lines ∧
        ∀ raw, raw ∈ lines → line_kept raw = true →
               is_Some (annotate w (Str.strip raw)).
Proof.
  rewrite main_run. simpl.
  assert (Hok : scan_ok w input_dir = true ↔
    ∃ filenames,
      listdir w input_dir = Some filenames ∧
      ∀ filename, filename ∈ take 55 filenames →
        ∃ lines,
          readlines w (input_dir +:+ filename) = Some lines ∧
          ∀ raw, raw ∈ lines → line_kept raw = true →
                 is_Some (annotate w (Str.strip raw))).
  { unfold scan_ok, listed. rewrite andb_true_iff, bool_decide_eq_true.
    rewrite forallb_forall. split.
    - intros [[filenames Hls] Hall]. exists filenames. split; [done |].
      intros filename Hin. rewrite Hls in Hall. simpl in Hall.
      specialize (Hall filename (proj1 (list_elem_of_In _ _) Hin)).
      unfold file_ok, file_lines in Hall.
      apply andb_true_iff in Hall as [[lines Hrd]%bool_decide_eq_true Hlines].
      exists lines. split; [done |]. intros raw Hraw Hkept.
      rewrite Hrd in Hlines. simpl in Hlines. rewrite forallb_forall in Hlines.
      specialize (Hlines raw (proj1 (list_elem_of_In _ _) Hraw)).
      unfold line_ok in Hlines. rewrite Hkept in Hlines. simpl in Hlines.
      by apply bool_decide_eq_true in Hlines.
    - intros (filenames & Hls & Hall). rewrite Hls. split; [by eexists |].
      simpl. intros filename Hin%list_elem_of_In.
      destruct (Hall filename Hin) as (lines & Hrd & Hlines).
      unfold file_ok, file_lines. rewrite Hrd.
      apply andb_true_iff. split; [apply bool_decide_eq_true; by eexists |].
      change (default [] (Some lines)) with lines.
      apply forallb_forall. intros raw Hraw%list_elem_of_In.
      unfold line_ok. destruct (line_kept raw) eqn:Hkept; [| done].
      simpl. apply bool_decide_eq_true. by apply Hlines. }
  rewrite <- Hok. destruct (scan_ok w input_dir); split.
  - done.
  - intros _. by eexists.
  - by intros [out ?].
  - done.
Qed.

Lemma until_raise_fail {A} (ok : A → bool) l :
  forallb ok l = false →
  ∃ l' x, until_raise ok l = l' ++ [x] ∧ ok x = false ∧ x ∈ l.
Proof.
  induction l as [|x l IH]; simpl; [done |].
  destruct (ok x) eqn:Hx; simpl.
  - intros (l' & y & -> & Hy & Hin)%IH. exists (x :: l'), y.
    split_and!; [done | done | apply elem_of_cons; by right].
  - intros _. exists [], x. split_and!; [done | done | apply elem_of_cons; by left].
Qed.

Lemma last_bind_snoc {A B} (f : A → list B) l x y :
  last (f x) = Some y → last ((l ++ [x]) ≫= f) = Some y.
Proof.
  intros Hy. rewrite bind_app, bind_cons. simpl. rewrite app_nil_r.
  rewrite last_app. by rewrite Hy.
Qed.

(** X10: the script stops at the first exception.  When a run of the
    scanner raises, the last entry of its log is the call that raised:
    the listing of the directory, the opening of a file or the annotation
    of a line, for which the world has no answer.  No call is made after
    it. *)
Theorem scan_stops_at_failure (w : world) (d : dicts) (input_dir : string)
    (s : state) :
  (scan w d input_dir s).1 = Raised →
  ∃ e, last (log (scan w d input_dir s).2) = Some e ∧ failing_call w e.
Proof.
  rewrite scan_run. unfold fst, snd, extend, log.
  destruct (scan_ok w input_dir) eqn:Hok; [done |]. intros _.
  assert (Hfile : ∀ filename, file_ok w input_dir filename = false →
            ∃ e, last (d_log (file_delta w d input_dir filename)) = Some e ∧
                 failing_call w e).
  { intros filename Hf. rewrite file_delta_log. unfold file_ok in Hf.
    apply andb_false_iff in Hf as [Hrd | Hlines].
    - apply bool_decide_eq_false in Hrd.
      assert (Hnone : readlines w (input_dir +:+ filename) = None).
      { destruct (readlines w (input_dir +:+ filename)); [| done].
        exfalso. apply Hrd. by eexists. }
      exists (Opened (input_dir +:+ filename)). split; [| done].
      unfold file_lines. by rewrite Hnone.
    - apply until_raise_fail in Hlines as (l' & raw & -> & Hraw & _).
      unfold line_ok in Hraw.
      apply orb_false_iff in Hraw as [Hkept%negb_false_iff Hann].
      apply bool_decide_eq_false in Hann.
      assert (Hnone : annotate w (Str.strip raw) = None).
      { destruct (annotate w (Str.strip raw)); [| done].
        exfalso. apply Hann. by eexists. }
      exists (Annotated (Str.strip raw)). split; [| done].
      change (Opened (input_dir +:+ filename) :: (l' ++ [raw]) ≫= line_events)
        with ([Opened (input_dir +:+ filename)] ++ (l' ++ [raw]) ≫= line_events).
      rewrite last_app.
      rewrite (last_bind_snoc line_events l' raw (Annotated (Str.strip raw))); [done |].
      unfold line_events. by rewrite Hkept. }
  rewrite scan_delta_log. unfold scan_ok in Hok.
  apply andb_false_iff in Hok as [Hls | Hfiles].
  - apply bool_decide_eq_false in Hls.
    assert (Hnone : listdir w input_dir = None).
    { destruct (listdir w input_dir); [| done]. exfalso. apply Hls. by eexists. }
    exists (Listed input_dir). split; [| done].
    unfold listed. rewrite Hnone. simpl. apply last_snoc.
  - apply until_raise_fail in Hfiles as (l' & filename & -> & Hf & _).
    destruct (Hfile filename Hf) as (e & Hlast & Hfail).
    exists e. split; [| done].
    rewrite last_app.
    change (Listed input_dir
              :: (l' ++ [filename]) ≫= (λ f, d_log (file_delta w d input_dir f)))
      with ([Listed input_dir]
              ++ (l' ++ [filename]) ≫= (λ f, d_log (file_delta w d input_dir f))).
    rewrite last_app.
    by rewrite (last_bind_snoc _ l' filename e Hlast).
Qed.

Lemma scan_stops_at_failure_witness :
  last (log (scan sample_world (build_dicts sample_ADV sample_ADJ)
               "blogs" initial).2) = Some (Listed "blogs").
Proof.
  destruct (scan_stops_at_failure sample_world
              (build_dicts sample_ADV sample_ADJ) "blogs" initial)
    as (e & Hlast & _); [vm_compute; reflexivity |].
  rewrite Hlast. vm_compute in Hlast. symmetry. exact Hlast.
Defined.

Lemma opened_paths_app l1 l2 :
  opened_paths (l1 ++ l2) = opened_paths l1 ++ opened_paths l2.
Proof. apply omap_app. Qed.

Lemma opened_paths_lines (lines : list string) :
  opened_paths (lines ≫= line_events) = [].
Proof.
  induction lines as [|raw lines IH]; [done |].
  rewrite bind_cons, opened_paths_app, IH. unfold line_events.
  by destruct (line_kept raw).
Qed.

Lemma opened_paths_files w d input_dir (filenames : list string) :
  opened_paths (filenames ≫= λ f, d_log (file_delta w d input_dir f))
  = (λ f, input_dir +:+ f) <$> filenames.
Proof.
  induction filenames as [|f l IH]; [done |].
  rewrite bind_cons, opened_paths_app, IH, file_delta_log.
  change (opened_paths (Opened (input_dir +:+ f)
            :: until_raise (line_ok w) (file_lines w input_dir f) ≫= line_events))
    with ((input_dir +:+ f)
            :: opened_paths (until_raise (line_ok w) (file_lines w input_dir f)
                             ≫= line_events)).
  by rewrite opened_paths_lines.
Qed.

(** X11: at most 55 files are opened.  In every run, returning or not,
    the paths opened are, in order, the directory argument followed by
    the file name for an initial segment of the first 55 listed names: no
    file is opened twice or out of order, none past the 55th, and a run
    that returns has opened all of the first 55. *)
Theorem opened_files_bound (w : world) (d : dicts) (input_dir : string)
    (s : state) :
  let r := scan w d input_dir s in
  let first55 := take 55 (default [] (listdir w input_dir)) in
  ∃ new done_,
    log r.2 = log s ++ new ∧
    opened_paths new = (λ f, input_dir +:+ f) <$> done_ ∧
    done_ `prefix_of` first55 ∧
    length (opened_paths new) ≤ 55 ∧
    (r.1 = Returned () → done_ = first55).
Proof.
  intros r first55.
  exists (d_log (scan_delta w d input_dir)),
         (until_raise (file_ok w input_dir) (listed w input_dir)).
  assert (Hr : r = (outcome_of (scan_ok w input_dir),
                    extend s (scan_delta w d input_dir))) by apply scan_run.
  assert (Hpaths : opened_paths (d_log (scan_delta w d input_dir))
                   = (λ f, input_dir +:+ f)
                       <$> until_raise (file_ok w input_dir) (listed w input_dir)).
  { rewrite scan_delta_log.
    change (opened_paths (Listed input_dir :: ?l)) with (opened_paths l).
    apply opened_paths_files. }
  assert (Hprefix : until_raise (file_ok w input_dir) (listed w input_dir)
                    `prefix_of` first55) by apply until_raise_prefix.
  split_and!.
  - by rewrite Hr.
  - done.
  - done.
  - rewrite Hpaths, length_fmap.
    apply prefix_length in Hprefix. unfold first55 in Hprefix.
    rewrite length_take in Hprefix. lia.
  - rewrite Hr. unfold fst. destruct (scan_ok w input_dir) eqn:Hok; [| done].
    intros _. apply until_raise_all.
    unfold scan_ok in Hok. by apply andb_true_iff in Hok as [_ ?].
Qed.

Lemma opened_files_bound_witness :
  opened_paths
    (log (scan sample_world (build_dicts sample_ADV sample_ADJ)
            "blogs/" initial).2)
  = ["blogs/1.xml"; "blogs/2.xml"].
Proof.
  destruct (opened_files_bound sample_world
              (build_dicts sample_ADV sample_ADJ) "blogs/" initial)
    as (new & done_ & Hlog & Hpaths & _ & _ & Hall).
  rewrite Hlog, opened_paths_app, Hpaths, Hall by (vm_compute; reflexivity).
  vm_compute. reflexivity.
Defined.

(** X12: the dump.  Whatever the two lists hold, the dumped list has at
    most 20000 entries, at most 10000 from each list; it is a sublist of
    the adjective examples followed by the adverb examples, so it keeps
    their order; and it is all of them when neither list has more than
    10000 entries. *)
Theorem dump_bounds (s : state) :
  (Z.of_nat (length (dumped s)) ≤ 20000)%Z ∧
  dumped s `sublist_of` adj s ++ adv s ∧
  ((Z.of_nat (length (adj s)) ≤ 10000)%Z →
   (Z.of_nat (length (adv s)) ≤ 10000)%Z →
   dumped s = adj s ++ adv s).
Proof.
  unfold dumped.
  destruct (slice_to_cap (adj s) 10000) as [HcapA HlenA]; [lia |].
  destruct (slice_to_cap (adv s) 10000) as [HcapB HlenB]; [lia |].
  split_and!.
  - rewrite length_app. lia.
  - rewrite HcapA, HcapB. apply sublist_app; apply sublist_take.
  - intros HA HB. rewrite HcapA, HcapB, !take_ge by lia. done.
Qed.

Lemma dump_bounds_witness :
  dumped (State [example_at sample_sentence 2 "ADJ"] [] [])
  = [example_at sample_sentence 2 "ADJ"].
Proof.
  destruct (dump_bounds (State [example_at sample_sentence 2 "ADJ"] [] []))
    as (_ & _ & Hall).
  apply Hall; simpl; lia.
Defined.

(** X13: the lists only grow.  A run of the scanner, returning or not,
    keeps every example and log entry it started with, in place: the old
    lists are initial segments of the new ones.  The final dump changes
    neither list. *)
Theorem scan_append_only (w : world) (d : dicts) (input_dir : string)
    (s : state) :
  let s' := (scan w d input_dir s).2 in
  adj s `prefix_of` adj s' ∧ adv s `prefix_of` adv s' ∧
  log s `prefix_of` log s' ∧
  ∀ ADJ ADV,
    (main w ADJ ADV input_dir s).2 = (scan w (build_dicts ADV ADJ) input_dir s).2.
Proof.
  intros s'. unfold s'. rewrite scan_run. unfold snd, extend. simpl.
  split_and!; try by eexists.
  intros ADJ ADV. by rewrite main_run, scan_run.
Qed.

(** ** Reading the word lists (lines 22-26) and stripping *)

Lemma lstrip_head s :
  Str.lstrip s = "" ∨
  ∃ c r, Str.lstrip s = String c r ∧ Str.isspace c = false.
Proof.
  induction s as [|c s IH]; simpl; [by left |].
  destruct (Str.isspace c) eqn:Hc; [done |]. right. by exists c, s.
Qed.

Lemma rstrip_head c r :
  Str.isspace c = false → Str.rstrip (String c r) = String c (Str.rstrip r).
Proof. intros Hc. simpl. by rewrite Hc, andb_false_r. Qed.

Lemma rstrip_idem s : Str.rstrip (Str.rstrip s) = Str.rstrip s.
Proof.
  induction s as [|c s IH]; [done |].
  change (Str.rstrip (String c s))
    with (if String.eqb (Str.rstrip s) "" && Str.isspace c then ""
          else String c (Str.rstrip s)).
  destruct (String.eqb (Str.rstrip s) "" && Str.isspace c) eqn:E; [done |].
  change (Str.rstrip (String c (Str.rstrip s)))
    with (if String.eqb (Str.rstrip (Str.rstrip s)) "" && Str.isspace c then ""
          else String c (Str.rstrip (Str.rstrip s))).
  by rewrite IH, E.
Qed.

Lemma strip_idem s : Str.strip (Str.strip s) = Str.strip s.
Proof.
  unfold Str.strip. destruct (lstrip_head s) as [-> | (c & r & -> & Hc)]; [done |].
  rewrite (rstrip_head c r Hc). simpl Str.lstrip. rewrite Hc.
  rewrite <- (rstrip_head c r Hc). apply rstrip_idem.
Qed.

Lemma lstrip_empty s : Str.lstrip s = "" ↔ all_space s = true.
Proof.
  induction s as [|c s IH]; simpl; [done |].
  destruct (Str.isspace c); simpl; [done |]. by split.
Qed.

Lemma strip_empty s : Str.strip s = "" ↔ all_space s = true.
Proof.
  rewrite <- lstrip_empty. unfold Str.strip.
  destruct (lstrip_head s) as [-> | (c & r & -> & Hc)]; [done |].
  rewrite (rstrip_head c r Hc). by split.
Qed.

Lemma size_list_to_set_bound (l : list string) :
  size (list_to_set l : gset string) ≤ length l.
Proof.
  induction l as [|x l IH].
  - change (list_to_set [] : gset string) with (∅ : gset string).
    by rewrite size_empty.
  - change (list_to_set (x :: l) : gset string)
      with ({[x]} ∪ list_to_set l : gset string).
    simpl length. rewrite size_union_alt, size_singleton.
    pose proof (subseteq_size (list_to_set l ∖ {[x]}) (list_to_set l : gset string)
                  ltac:(set_solver)).
    lia.
Qed.

(** X14: reading a word list.  The set read from a file holds exactly the
    stripped lines of the file, so no more words than lines; every word of
    it is unchanged by stripping (stripping twice is stripping once); and
    it holds the empty word exactly when some line of the file consists
    of spaces only, a blank line included. *)
Theorem lexicon_loading (lines : list string) :
  (∀ word, word ∈ load_lexicon lines ↔
           ∃ line, line ∈ lines ∧ word = Str.strip line) ∧
  (∀ word, word ∈ load_lexicon lines → Str.strip word = word) ∧
  size (load_lexicon lines) ≤ length lines ∧
  ("" ∈ load_lexicon lines ↔ ∃ line, line ∈ lines ∧ all_space line = true).
Proof.
  assert (Hin : ∀ word, word ∈ load_lexicon lines ↔
                  ∃ line, line ∈ lines ∧ word = Str.strip line).
  { intros word. unfold load_lexicon.
    rewrite elem_of_list_to_set, list_elem_of_fmap. naive_solver. }
  split_and!.
  - done.
  - intros word (line & _ & ->)%Hin. apply strip_idem.
  - unfold load_lexicon.
    etrans; [apply size_list_to_set_bound |]. by rewrite length_fmap.
  - rewrite Hin. split.
    + intros (line & Hline & Hempty). exists line. split; [done |].
      by apply strip_empty.
    + intros (line & Hline & Hspace). exists line. split; [done |].
      symmetry. by apply strip_empty.
Qed.

Lemma lexicon_loading_witness :
  "" ∈ load_lexicon ["quick "; "  "] ∧ Str.strip "quick" = "quick".
Proof.
  destruct (lexicon_loading ["quick "; "  "]) as (Hin & Hfix & _ & Hblank).
  split.
  - apply Hblank. exists "  ". split; [| reflexivity].
    apply elem_of_cons. right. apply elem_of_cons. by left.
  - apply Hfix. apply Hin. exists "quick ". split; [| reflexivity].
    apply elem_of_cons. by left.
Defined.

(** ** The words the examples point at *)

(** X15: in every run, the token an ADJ example points at is an adjective
    of the list that is not in the adverb list and does not end in "ly",
    and the token an ADV example points at is "well" or ends in "ly" and
    is the adverb the mapper returns for some adjective of the list.  A
    word that has the same form as adjective and adverb (it is in both
    lists) is therefore never the target of an ADJ example. *)
Theorem example_targets (w : world) (ADJ : list string) (ADV : gset string)
    (input_dir : string) :
  let s' := (main w ADJ ADV input_dir initial).2 in
  (∀ ex, ex ∈ adj s' →
     ∃ word, sentence ex !! ind ex = Some word ∧
             word ∈ ADJ ∧ (word ∉ ADV) ∧ ¬ ends_in "ly" word) ∧
  (∀ ex, ex ∈ adv s' →
     ∃ word a, sentence ex !! ind ex = Some word ∧
               (word = "well" ∨ ends_in "ly" word) ∧
               a ∈ ADJ ∧ transform_adj_to_adv ADV a = Some word).
Proof.
  intros s'. unfold s'. rewrite main_run. unfold snd, extend, adj, adv, initial.
  set (d := build_dicts ADV ADJ).
  assert (Hfrom : ∀ b ex, ex ∈ part b (scan_delta w d input_dir) →
            ∃ (sent : list Token) token, sent !! ind ex = Some token ∧
              sentence ex !! ind ex = Some (text token) ∧
              (if b then is_adj d token else is_adv d token) = true).
  { intros b ex (_ & _ & _ & sent & _ & _ & _ & _ & _ & _ & Hex)%scan_delta_elem.
    apply sent_part_elem in Hex as (i & token & Hi & Hb & ->).
    exists sent, token. split_and!; [done | | done].
    simpl. by rewrite list_lookup_fmap, Hi. }
  split.
  - intros ex Hex. destruct (Hfrom true ex Hex) as (sent & token & _ & Htext & Hb).
    apply is_adj_spec in Hb as (_ & _ & adv0 & Hlk & _).
    apply adj_to_adv_lookup in Hlk as [Hin Hrec].
    destruct (recorded_words ADV _ _ Hrec) as (Hadv & Hly & _).
    by exists (text token).
  - intros ex Hex. destruct (Hfrom false ex Hex) as (sent & token & _ & Htext & Hb).
    apply is_adv_spec in Hb as (_ & _ & a & Hlk & _).
    apply adv_to_adj_lookup in Hlk as [Hin [Ht Hne]].
    destruct (mapper_shape_aux ADV a (text token) Ht) as [_ [? | Hshape]]; [done |].
    by exists (text token), a.
Qed.

Lemma example_targets_witness :
  ∃ word, sentence (example_at sample_sentence 2 "ADJ") !! 2 = Some word ∧
          word ∈ sample_ADJ ∧ (word ∉ sample_ADV).
Proof.
  destruct (example_targets sample_world sample_ADJ sample_ADV "blogs/")
    as (Hadj & _).
  destruct (Hadj (example_at sample_sentence 2 "ADJ"))
    as (word & Hword & Hin & Hout & _).
  - replace (adj (main sample_world sample_ADJ sample_ADV "blogs/" initial).2)
      with [example_at sample_sentence 2 "ADJ"] by (vm_compute; reflexivity).
    apply list_elem_of_singleton. reflexivity.
  - exists word. split_and!; [exact Hword | exact Hin | exact Hout].
Defined.
